(** * Repository finders of libostree: a shallow embedding

    The development follows three source files:
    - [ostree-repo-finder.c]: ref validation, the result comparator and the
      aggregation of several finders ([ostree_repo_finder_resolve_all_async]);
    - [ostree-repo-finder-mount.c]: the finder scanning mounted removable
      volumes;
    - [ostree-repo-finder-config.c]: the finder reading the configured remotes.

    C data is represented as follows.  A NUL-terminated C string is the
    [string] of its bytes before the terminator; a pointer that may be NULL is
    an [option]; a NULL-terminated array is the [list] of its elements before
    the terminator; [gint] is a 32-bit two's complement integer, [guint] a
    32-bit and [guint64]/[gsize] a 64-bit unsigned integer, all carried by [Z]
    with the wrap-around written out; a [GHashTable] with string keys is a
    [gmap string _]. *)

From Stdlib Require Import ZArith Lia String Ascii List Permutation Sorted.
From stdpp Require Import base gmap strings list fin_maps.
Import ListNotations.

Local Open Scope string_scope.
Local Open Scope list_scope.
Local Open Scope Z_scope.

(** ** Machine integers *)

Module CInt.

Definition GINT_MIN : Z := - 2 ^ 31.
Definition GINT_MAX : Z := 2 ^ 31 - 1.

(** Conversion to [gint]: reduction modulo 2^32 into the signed range. *)
Definition to_gint (z : Z) : Z := (z + 2 ^ 31) mod 2 ^ 32 - 2 ^ 31.

Definition to_guint (z : Z) : Z := z mod 2 ^ 32.

Definition to_guint64 (z : Z) : Z := z mod 2 ^ 64.

Definition to_gsize (z : Z) : Z := z mod 2 ^ 64.

Definition is_gint (z : Z) : Prop := GINT_MIN <= z <= GINT_MAX.

Definition is_guint64 (z : Z) : Prop := 0 <= z < 2 ^ 64.

End CInt.

Import CInt.

(** ** C strings *)

Definition byte (c : ascii) : Z := Z.of_N (N_of_ascii c).

Fixpoint chars (s : string) : list ascii :=
  match s with
  | EmptyString => []
  | String c r => c :: chars r
  end.

(** [strcmp]: the difference of the first two bytes that differ, compared as
    unsigned characters (the terminator counts as byte 0). *)
Fixpoint strcmp (s1 s2 : string) : Z :=
  match s1, s2 with
  | EmptyString, EmptyString => 0
  | EmptyString, String c2 _ => 0 - byte c2
  | String c1 _, EmptyString => byte c1 - 0
  | String c1 r1, String c2 r2 =>
      if byte c1 =? byte c2 then strcmp r1 r2 else byte c1 - byte c2
  end.

(** [g_strcmp0]: [strcmp] that accepts NULL, which sorts before any string. *)
Definition g_strcmp0 (str1 str2 : option string) : Z :=
  match str1, str2 with
  | None, None => 0
  | None, Some _ => -1
  | Some _, None => 1
  | Some s1, Some s2 => strcmp s1 s2
  end.

(** [g_str_is_ascii]: no byte of the string has its high bit set. *)
Fixpoint g_str_is_ascii (str : string) : bool :=
  match str with
  | EmptyString => true
  | String c r =>
      if Z.land (byte c) 128 =? 0 then g_str_is_ascii r else false
  end.

(** Printable ASCII, as [g_ascii_isprint] has it: space to tilde. *)
Definition ascii_printable (c : ascii) : Prop := 32 <= byte c <= 126.

(** ** Ref validation (ostree-repo-finder.c) *)

Definition is_empty_string (s : string) : bool :=
  match s with
  | EmptyString => true
  | String _ _ => false
  end.

(** [is_valid_ref_name]: non-NULL, non-empty and ASCII. *)
Definition is_valid_ref_name (ref_name : option string) : bool :=
  match ref_name with
  | None => false
  | Some s => negb (is_empty_string s) && g_str_is_ascii s
  end.

(** The loop of [is_valid_ref_array] over the elements before the NULL
    terminator; it returns at the first invalid name. *)
Fixpoint is_valid_ref_array_loop (refs : list string) : bool :=
  match refs with
  | [] => true
  | r :: rest =>
      if negb (is_valid_ref_name (Some r)) then false
      else is_valid_ref_array_loop rest
  end.

(** [is_valid_ref_array]: non-NULL, non-empty, only valid ref names. *)
Definition is_valid_ref_array (refs : option (list string)) : bool :=
  match refs with
  | None => false
  | Some [] => false
  | Some l => is_valid_ref_array_loop l
  end.

(** ** Results and their comparator (ostree-repo-finder.h, ostree-repo-finder.c) *)

Record OstreeRemote := {
  remote_name : option string;
  remote_group : string;
  remote_url : string;
  remote_gpg_verify : bool;
  remote_gpg_verify_summary : bool
}.

Record OstreeRepoFinderResult := {
  remote : OstreeRemote;
  priority : Z;                                    (* gint *)
  ref_to_checksum : gmap string (option string);   (* value may be NULL *)
  summary_last_modified : Z                        (* guint64 *)
}.

(** The values a result can hold, by the C types of its fields. *)
Definition result_wf (r : OstreeRepoFinderResult) : Prop :=
  is_gint (priority r) /\ is_guint64 (summary_last_modified r).

Definition g_hash_table_size {V} (h : gmap string V) : Z :=
  to_guint (Z.of_nat (size h)).

(** [ostree_repo_finder_result_compare].  The function returns [gint]: the
    difference of the two [guint64] timestamps is computed modulo 2^64 and
    converted to [gint] by the return.  The difference of the two [gint]
    priorities is taken to wrap around when it overflows. *)
Definition ostree_repo_finder_result_compare
    (a b : option OstreeRepoFinderResult) : Z :=
  match a, b with
  | None, _ => 0
  | _, None => 0
  | Some a, Some b =>
      if negb (priority a =? priority b) then
        to_gint (priority a - priority b)
      else if negb (summary_last_modified a =? 0)
              && negb (summary_last_modified b =? 0)
              && negb (summary_last_modified a =? summary_last_modified b) then
        to_gint (to_guint64 (summary_last_modified a - summary_last_modified b))
      else
        let a_n_refs := g_hash_table_size (ref_to_checksum a) in
        let b_n_refs := g_hash_table_size (ref_to_checksum b) in
        if negb (a_n_refs =? b_n_refs) then
          to_gint (to_gint a_n_refs - to_gint b_n_refs)
        else
          g_strcmp0 (remote_name (remote a)) (remote_name (remote b))
  end.

(** [sort_results_cb]: the array elements are never NULL. *)
Definition sort_results_cb (a b : OstreeRepoFinderResult) : Z :=
  ostree_repo_finder_result_compare (Some a) (Some b).

(** [g_ptr_array_sort] hands the array and the callback to [qsort] of the C
    library, which sorts by merging ([msort_with_tmp]): an array of more
    than one element is cut in two, the first part of [n / 2] elements, each
    part is sorted, and the parts are merged, the element of the first part
    going first unless the callback returns a positive value.  The recursion
    is on a bound [fuel] of the depth; the length of the array is enough. *)
Fixpoint msort_merge {A} (compare_func : A -> A -> Z) (b1 b2 : list A)
  : list A :=
  let fix merge_b2 (b2 : list A) : list A :=
    match b1, b2 with
    | [], _ => b2
    | _, [] => b1
    | x1 :: rest1, x2 :: rest2 =>
        if compare_func x1 x2 <=? 0
        then x1 :: msort_merge compare_func rest1 b2
        else x2 :: merge_b2 rest2
    end in
  merge_b2 b2.

Fixpoint msort_with_tmp {A} (fuel : nat) (compare_func : A -> A -> Z)
    (b : list A) : list A :=
  match fuel with
  | O => b
  | S fuel' =>
      if (length b <=? 1)%nat then b
      else
        let n1 := (length b / 2)%nat in
        msort_merge compare_func
          (msort_with_tmp fuel' compare_func (firstn n1 b))
          (msort_with_tmp fuel' compare_func (skipn n1 b))
  end.

Definition g_ptr_array_sort {A} (compare_func : A -> A -> Z) (array : list A)
  : list A :=
  msort_with_tmp (length array) compare_func array.

(** The key cascade as the specification words it, for comparison with the
    code: priority, then the timestamps when both are known and differ, then
    the number of refs, then the remote name. *)
Fixpoint string_lex (s1 s2 : string) : comparison :=
  match s1, s2 with
  | EmptyString, EmptyString => Eq
  | EmptyString, String _ _ => Lt
  | String _ _, EmptyString => Gt
  | String c1 r1, String c2 r2 =>
      match byte c1 ?= byte c2 with
      | Eq => string_lex r1 r2
      | o => o
      end
  end.

Definition name_lex (n1 n2 : option string) : comparison :=
  match n1, n2 with
  | None, None => Eq
  | None, Some _ => Lt
  | Some _, None => Gt
  | Some s1, Some s2 => string_lex s1 s2
  end.

Definition compare_cascade (a b : OstreeRepoFinderResult) : comparison :=
  match priority a ?= priority b with
  | Eq =>
      let by_refs :=
        match Z.of_nat (size (ref_to_checksum a)) ?= Z.of_nat (size (ref_to_checksum b)) with
        | Eq => name_lex (remote_name (remote a)) (remote_name (remote b))
        | o => o
        end in
      if negb (summary_last_modified a =? 0)
         && negb (summary_last_modified b =? 0) then
        match summary_last_modified a ?= summary_last_modified b with
        | Eq => by_refs
        | o => o
        end
      else by_refs
  | o => o
  end.

(** The sign of a comparator's return value. *)
Definition sign_of (z : Z) : comparison := z ?= 0.

(** ** Aggregation of several finders (ostree-repo-finder.c) *)

Record GError := { message : string }.

(** A finder behind [OstreeRepoFinderInterface].  [iface_resolve f refs] is
    what [resolve_finish] yields for the operation that [resolve_async]
    started with [refs]: an error or an array of results, never both. *)
Record OstreeRepoFinder := {
  g_type_name : string;
  iface_resolve : list string -> GError + list OstreeRepoFinderResult
}.

Record ResolveAllData := {
  n_finders_pending : Z;                              (* gsize *)
  results : option (list OstreeRepoFinderResult)      (* NULL once stolen *)
}.

(** The task of one [resolve_all] call: its data and the values handed to
    [g_task_return_pointer] so far. *)
Record GTask := {
  task_data : ResolveAllData;
  task_returned : list (list OstreeRepoFinderResult)
}.

(** [array_concatenate_steal]; [g_ptr_array_add] refuses a NULL array. *)
Definition array_concatenate_steal
    (array : option (list OstreeRepoFinderResult))
    (to_concatenate : list OstreeRepoFinderResult)
  : option (list OstreeRepoFinderResult) :=
  match array with
  | Some a => Some (a ++ to_concatenate)
  | None => None
  end.

(** [resolve_all_finished_one].  [None] is the crash of reading the length of
    a results array that was already stolen. *)
Definition resolve_all_finished_one (task : GTask) : option GTask :=
  let data := task_data task in
  let n := to_gsize (n_finders_pending data - 1) in
  if n =? 0 then
    match results data with
    | Some rs =>
        let sorted := g_ptr_array_sort sort_results_cb rs in
        Some {| task_data := {| n_finders_pending := n; results := None |};
                task_returned := task_returned task ++ [sorted] |}
    | None => None
    end
  else
    Some {| task_data := {| n_finders_pending := n; results := results data |};
            task_returned := task_returned task |}.

(** [resolve_all_cb], given what [resolve_finish] yielded. *)
Definition resolve_all_cb
    (outcome : GError + list OstreeRepoFinderResult) (task : GTask)
  : option GTask :=
  let data := task_data task in
  let data' :=
    match outcome with
    | inl local_error => data
    | inr rs =>
        {| n_finders_pending := n_finders_pending data;
           results := array_concatenate_steal (results data) rs |}
    end in
  resolve_all_finished_one
    {| task_data := data'; task_returned := task_returned task |}.

(** The loop of [ostree_repo_finder_resolve_all_async] that starts the
    queries: each finder is invoked and the count of pending finders is
    incremented. *)
Fixpoint resolve_all_start_loop
    (finders : list OstreeRepoFinder) (invoked : list OstreeRepoFinder)
    (data : ResolveAllData) : list OstreeRepoFinder * ResolveAllData :=
  match finders with
  | [] => (invoked, data)
  | finder :: rest =>
      resolve_all_start_loop rest (invoked ++ [finder])
        {| n_finders_pending := to_gsize (n_finders_pending data + 1);
           results := results data |}
  end.

(** What a call of [ostree_repo_finder_resolve_all_async] has done when it
    returns: the failed [g_return_if_fail] checks, the finders whose
    [resolve_async] was invoked, and the task if one was created. *)
Record ResolveAllCall := {
  call_criticals : list string;
  call_invoked : list OstreeRepoFinder;
  call_task : option GTask
}.

Definition return_if_fail (check : string) : ResolveAllCall :=
  {| call_criticals := [check]; call_invoked := []; call_task := None |}.

Definition ostree_repo_finder_resolve_all_async
    (finders : option (list OstreeRepoFinder)) (refs : option (list string))
  : ResolveAllCall :=
  match finders with
  | None | Some [] => return_if_fail "finders != NULL && finders[0] != NULL"
  | Some fs =>
      if negb (is_valid_ref_array refs) then
        return_if_fail "is_valid_ref_array (refs)"
      else
        let data := {| n_finders_pending := 1; results := Some [] |} in
        let '(invoked, data) := resolve_all_start_loop fs [] data in
        {| call_criticals := [];
           call_invoked := invoked;
           call_task :=
             resolve_all_finished_one {| task_data := data; task_returned := [] |} |}
  end.

(** The main loop delivers the completion of each started query to
    [resolve_all_cb], in the order in which the queries complete.  A task
    never completes inside [resolve_async] itself: GTask defers the callback
    to the main loop. *)
Fixpoint dispatch_completions
    (completions : list (GError + list OstreeRepoFinderResult)) (task : GTask)
  : option GTask :=
  match completions with
  | [] => Some task
  | outcome :: rest =>
      match resolve_all_cb outcome task with
      | Some task' => dispatch_completions rest task'
      | None => None
      end
  end.

(** A whole run: the call, then the completions of [completed], a sequence of
    started finders in completion order. *)
Definition resolve_all_run
    (finders : list OstreeRepoFinder) (refs : list string)
    (completed : list OstreeRepoFinder) : option GTask :=
  match call_task (ostree_repo_finder_resolve_all_async (Some finders) (Some refs)) with
  | Some task =>
      dispatch_completions (map (fun f => iface_resolve f refs) completed) task
  | None => None
  end.

(** The result arrays of the queries that succeeded, concatenated. *)
Fixpoint successful_results
    (completions : list (GError + list OstreeRepoFinderResult))
  : list OstreeRepoFinderResult :=
  match completions with
  | [] => []
  | inl _ :: rest => successful_results rest
  | inr rs :: rest => rs ++ successful_results rest
  end.


(** ** What the two finders hand to the result constructor

    Both finders call [ostree_repo_finder_result_new (remote, priority, refs,
    0)] with the NULL-terminated array of the refs they collected for the
    remote, although the constructor of ostree-repo-finder.c expects a table
    from refs to checksums.  The record holds the arguments of one such
    call, as the finders pass them. *)
Record ResultNewCall := {
  arg_remote : OstreeRemote;
  arg_priority : Z;
  arg_refs : list string;
  arg_summary_last_modified : Z
}.

(** ** The mount finder (ostree-repo-finder-mount.c) *)

Record stat := {
  st_mode : Z;
  st_dev : Z
}.

Definition S_IFMT : Z := 61440.    (* 0170000 *)
Definition S_IFDIR : Z := 16384.   (* 0040000 *)

Record GDrive := { g_drive_is_removable : bool }.

(** A mount, by the path of its root. *)
Record GMount := { g_mount_get_root_path : string }.

Record GVolume := {
  g_volume_get_drive : option GDrive;
  g_volume_get_mount : option GMount;
  g_volume_get_name : string
}.

(** The file system operations the finder uses.  A directory descriptor is a
    number; [None] as the base of [glnx_opendirat] is AT_FDCWD; a failed
    operation returns [None] ([realpath]: NULL). *)
Record FileSystem := {
  glnx_opendirat : option Z -> string -> option Z;
  glnx_fstat : Z -> option stat;
  glnx_fstatat : Z -> string -> option stat;
  realpath : string -> option string
}.

(** [g_build_filename], without the removal of doubled separators. *)
Definition g_build_filename (elements : list string) : string :=
  String.concat "/" elements.

(** [g_strconcat ("file://", path, NULL)]: a NULL [path] ends the argument
    list early. *)
Definition file_uri (path : option string) : string :=
  match path with
  | Some p => String.append "file://" p
  | None => "file://"
  end.

Definition mount_priority : Z := 50.

(** One iteration of the loop over [refs], up to the computation of the
    repository URI: [None] when the ref is ignored on this volume. *)
Definition mount_resolve_ref
    (fs : FileSystem) (mount_root_path : string) (repos_dfd : Z)
    (mount_root_stbuf : stat) (ref : string) : option string :=
  let repo_dir_path :=
    g_build_filename [mount_root_path; ".ostree"; "repos"; ref] in
  match glnx_fstatat fs repos_dfd ref with
  | None => None
  | Some stbuf =>
      if negb (Z.land (st_mode stbuf) S_IFMT =? S_IFDIR) then None
      else if negb (st_dev stbuf =? st_dev mount_root_stbuf) then None
      else Some (file_uri (realpath fs repo_dir_path))
  end.

(** The end of an iteration, shared by the two finders: look the key up,
    create its array if there is none, append the ref. *)
Definition add_supported_ref
    (key : string) (ref : string) (table : gmap string (list string))
  : gmap string (list string) :=
  let supported_refs :=
    match table !! key with
    | Some l => l
    | None => []
    end in
  <[key := supported_refs ++ [ref]]> table.

Fixpoint mount_refs_loop
    (fs : FileSystem) (mount_root_path : string) (repos_dfd : Z)
    (mount_root_stbuf : stat) (refs : list string)
    (repo_uri_to_refs : gmap string (list string))
  : gmap string (list string) :=
  match refs with
  | [] => repo_uri_to_refs
  | ref :: rest =>
      let table :=
        match mount_resolve_ref fs mount_root_path repos_dfd mount_root_stbuf ref with
        | None => repo_uri_to_refs
        | Some resolved_repo_uri =>
            add_supported_ref resolved_repo_uri ref repo_uri_to_refs
        end in
      mount_refs_loop fs mount_root_path repos_dfd mount_root_stbuf rest table
  end.

Definition dquote : string := String (ascii_of_nat 34) EmptyString.

Definition mount_make_result (entry : string * list string) : ResultNewCall :=
  let '(repo_uri, supported_refs) := entry in
  {| arg_remote :=
       {| remote_name := Some repo_uri;
          remote_group :=
            String.append "remote " (String.append dquote (String.append repo_uri dquote));
          remote_url := repo_uri;
          remote_gpg_verify := true;
          remote_gpg_verify_summary := true |};
     arg_priority := mount_priority;
     arg_refs := supported_refs;
     arg_summary_last_modified := 0 |}.

(** The body of the loop over the volumes: the results one volume adds.  The
    hash table is walked in the order of [map_to_list]. *)
Definition mount_volume_results
    (fs : FileSystem) (refs : list string) (volume : GVolume)
  : list ResultNewCall :=
  match g_volume_get_drive volume, g_volume_get_mount volume with
  | Some drive, Some mount =>
      if negb (g_drive_is_removable drive) then []
      else
        let mount_root_path := g_mount_get_root_path mount in
        match glnx_opendirat fs None mount_root_path with
        | None => []
        | Some mount_root_dfd =>
            match glnx_opendirat fs (Some mount_root_dfd) ".ostree/repos" with
            | None => []
            | Some repos_dfd =>
                match glnx_fstat fs mount_root_dfd with
                | None => []
                | Some mount_root_stbuf =>
                    let repo_uri_to_refs :=
                      mount_refs_loop fs mount_root_path repos_dfd
                        mount_root_stbuf refs ∅ in
                    map mount_make_result (map_to_list repo_uri_to_refs)
                end
            end
        end
  | _, _ => []
  end.

(** [ostree_repo_finder_mount_resolve_async], with what its task returns:
    the monitor's volumes are walked in order, and the only exit is the
    return of the array of results. *)
Definition ostree_repo_finder_mount_resolve_async
    (fs : FileSystem) (volumes : list GVolume) (refs : list string)
  : GError + list ResultNewCall :=
  inr (flat_map (mount_volume_results fs refs) volumes).

(** ** The config finder (ostree-repo-finder-config.c) *)

Record OstreeRepo := {
  ostree_repo_remote_list : list string;
  ostree_repo_remote_list_refs : string -> option (gmap string string);
  _ostree_repo_get_remote_inherited : string -> option OstreeRemote
}.

Definition config_priority : Z := 100.

(** The inner loop: the requested refs the remote lists. *)
Fixpoint config_refs_loop
    (remote_name : string) (remote_refs : gmap string string)
    (refs : list string) (repo_name_to_refs : gmap string (list string))
  : gmap string (list string) :=
  match refs with
  | [] => repo_name_to_refs
  | ref :: rest =>
      let table :=
        if bool_decide (is_Some (remote_refs !! ref)) then
          add_supported_ref remote_name ref repo_name_to_refs
        else repo_name_to_refs in
      config_refs_loop remote_name remote_refs rest table
  end.

(** The outer loop: a remote whose refs cannot be listed is ignored. *)
Fixpoint config_remotes_loop
    (repo : OstreeRepo) (remotes : list string) (refs : list string)
    (repo_name_to_refs : gmap string (list string))
  : gmap string (list string) :=
  match remotes with
  | [] => repo_name_to_refs
  | remote_name :: rest =>
      let table :=
        match ostree_repo_remote_list_refs repo remote_name with
        | None => repo_name_to_refs
        | Some remote_refs =>
            config_refs_loop remote_name remote_refs refs repo_name_to_refs
        end in
      config_remotes_loop repo rest refs table
  end.

(** The aggregation loop: a remote without configuration is skipped. *)
Fixpoint config_aggregate
    (repo : OstreeRepo) (entries : list (string * list string))
  : list ResultNewCall :=
  match entries with
  | [] => []
  | (remote_name, supported_refs) :: rest =>
      match _ostree_repo_get_remote_inherited repo remote_name with
      | None => config_aggregate repo rest
      | Some remote =>
          {| arg_remote := remote;
             arg_priority := config_priority;
             arg_refs := supported_refs;
             arg_summary_last_modified := 0 |}
          :: config_aggregate repo rest
      end
  end.

(** [ostree_repo_finder_config_resolve_async], with what its task returns. *)
Definition ostree_repo_finder_config_resolve_async
    (repo : OstreeRepo) (refs : list string) : GError + list ResultNewCall :=
  let repo_name_to_refs :=
    config_remotes_loop repo (ostree_repo_remote_list repo) refs ∅ in
  inr (config_aggregate repo (map_to_list repo_name_to_refs)).

(** ** The other entry points of ostree-repo-finder.c *)

(** [is_valid_checksum]: every checksum is accepted, NULL included. *)
Definition is_valid_checksum (checksum : option string) : bool := true.

(** The loop of [is_valid_ref_map] over the entries of the table; it returns
    at the first entry that is refused. *)
Fixpoint is_valid_ref_map_loop (entries : list (string * option string)) : bool :=
  match entries with
  | [] => true
  | (ref, checksum) :: rest =>
      if negb (is_valid_ref_name (Some ref)) then false
      else if negb (is_valid_checksum checksum) then false
      else is_valid_ref_map_loop rest
  end.

(** [is_valid_ref_map]: non-NULL, non-empty, only valid ref names as keys.
    The table is walked in the order of [map_to_list]. *)
Definition is_valid_ref_map
    (ref_to_checksum : option (gmap string (option string))) : bool :=
  match ref_to_checksum with
  | None => false
  | Some table =>
      if g_hash_table_size table =? 0 then false
      else is_valid_ref_map_loop (map_to_list table)
  end.

(** [ostree_repo_finder_result_new]: NULL when one of its three checks
    fails.  The finder is kept in a field that the public structure does not
    show. *)
Definition ostree_repo_finder_result_new
    (remote : option OstreeRemote) (finder : option OstreeRepoFinder)
    (priority : Z) (ref_to_checksum : option (gmap string (option string)))
    (summary_last_modified : Z) : option OstreeRepoFinderResult :=
  match remote, finder, ref_to_checksum with
  | Some remote, Some finder, Some table =>
      if negb (is_valid_ref_map (Some table)) then None
      else
        Some {| remote := remote;
                priority := priority;
                ref_to_checksum := table;
                summary_last_modified := summary_last_modified |}
  | _, _, _ => None
  end.




(** [resolve_all_data_free]: [None] is the failure of its assertion that no
    finder is pending; the results array is released if it is still there. *)
Definition resolve_all_data_free (data : ResolveAllData) : option unit :=
  if n_finders_pending data =? 0 then Some tt else None.

(** ** Auxiliary views of the two finders *)

(** The checks a volume passes before its refs are looked at: the path of
    the mount root, the descriptor of [.ostree/repos] and the [stat] of the
    mount root, or [None] when the volume is ignored. *)
Definition mount_volume_open (fs : FileSystem) (volume : GVolume)
  : option (string * Z * stat) :=
  match g_volume_get_drive volume, g_volume_get_mount volume with
  | Some drive, Some mount =>
      if negb (g_drive_is_removable drive) then None
      else
        let mount_root_path := g_mount_get_root_path mount in
        match glnx_opendirat fs None mount_root_path with
        | None => None
        | Some mount_root_dfd =>
            match glnx_opendirat fs (Some mount_root_dfd) ".ostree/repos" with
            | None => None
            | Some repos_dfd =>
                match glnx_fstat fs mount_root_dfd with
                | None => None
                | Some mount_root_stbuf =>
                    Some (mount_root_path, repos_dfd, mount_root_stbuf)
                end
            end
        end
  | _, _ => None
  end.

(** The grouping both finders perform: each ref that has a key is appended
    to the array of its key. *)
Fixpoint group_refs
    (key_of : string -> option string) (refs : list string)
    (table : gmap string (list string)) : gmap string (list string) :=
  match refs with
  | [] => table
  | ref :: rest =>
      let table' :=
        match key_of ref with
        | None => table
        | Some key => add_supported_ref key ref table
        end in
      group_refs key_of rest table'
  end.

(** The refs of a request that have the given key, in the order and with the
    repetitions of the request. *)
Definition refs_with_key
    (key_of : string -> option string) (key : string) (refs : list string)
  : list string :=
  List.filter (fun r => bool_decide (key_of r = Some key)) refs.

(** The key the config finder gives a ref while it looks at one remote. *)
Definition config_key_of
    (remote_name : string) (remote_refs : gmap string string) (ref : string)
  : option string :=
  if bool_decide (is_Some (remote_refs !! ref)) then Some remote_name else None.

(** The refs of a request that a remote lists. *)
Definition config_supported (repo : OstreeRepo) (remote_name : string)
    (refs : list string) : list string :=
  match ostree_repo_remote_list_refs repo remote_name with
  | Some remote_refs =>
      List.filter (fun r => bool_decide (is_Some (remote_refs !! r))) refs
  | None => []
  end.

Definition named (uri : string) (c : ResultNewCall) : bool :=
  bool_decide (remote_name (arg_remote c) = Some uri).

Definition without_ref (r : string) (refs : list string) : list string :=
  List.filter (fun r' => negb (String.eqb r' r)) refs.

(** The entry of a key after more refs have been appended to its array. *)
Definition extend_entry (entry : option (list string)) (more : list string)
  : option (list string) :=
  match more with
  | [] => entry
  | _ => Some (default [] entry ++ more)
  end.

(** A C string holds no NUL byte. *)
Definition is_c_string (s : string) : Prop :=
  Forall (fun c => byte c <> 0) (chars s).

Definition name_is_c_string (n : option string) : Prop :=
  match n with
  | Some s => is_c_string s
  | None => True
  end.

(** The pairs of results on which no conversion to [gint] in the comparator
    loses information. *)
Definition compare_in_range (a b : OstreeRepoFinderResult) : Prop :=
  is_gint (priority a - priority b) /\
  is_gint (summary_last_modified a - summary_last_modified b) /\
  Z.of_nat (size (ref_to_checksum a)) <= GINT_MAX /\
  Z.of_nat (size (ref_to_checksum b)) <= GINT_MAX /\
  name_is_c_string (remote_name (remote a)) /\
  name_is_c_string (remote_name (remote b)).

(** The volumes that pass the checks made before any directory is opened:
    a drive, a mount, and the drive removable. *)
Definition volume_is_candidate (volume : GVolume) : bool :=
  match g_volume_get_drive volume, g_volume_get_mount volume with
  | Some drive, Some _ => g_drive_is_removable drive
  | _, _ => false
  end.




(** A comparison callback decides as a relation does: where it is not
    positive the first argument is related to the second, where it is
    positive the second is related to the first. *)
Definition comparator_agrees {A} (R : A -> A -> Prop) (cmp : A -> A -> Z)
    (a b : A) : Prop :=
  (cmp a b <= 0 -> R a b) /\ (0 < cmp a b -> R b a).

(** ** Concrete inputs used below *)

(** The horizontal tab, a control character. *)
Definition tab_name : string := String (ascii_of_nat 9) EmptyString.

(** A finder that always fails, and one that returns what it is given. *)
Definition failing_finder : OstreeRepoFinder :=
  {| g_type_name := "FailingFinder";
     iface_resolve := fun _ => inl {| message := "failed" |} |}.

Definition constant_finder (rs : list OstreeRepoFinderResult) : OstreeRepoFinder :=
  {| g_type_name := "ConstantFinder"; iface_resolve := fun _ => inr rs |}.

Definition example_remote (n : string) : OstreeRemote :=
  {| remote_name := Some n;
     remote_group := "remote";
     remote_url := n;
     remote_gpg_verify := true;
     remote_gpg_verify_summary := true |}.

Definition example_result (n : string) (p : Z) (modified : Z)
  : OstreeRepoFinderResult :=
  {| remote := example_remote n;
     priority := p;
     ref_to_checksum := {[ "app/stable" := None ]};
     summary_last_modified := modified |}.

(** Two results that differ only in their timestamps: one second after the
    epoch, and 2^31 seconds later. *)
Definition result_1970 : OstreeRepoFinderResult :=
  example_result "file:///repo" 50 1.

Definition result_2038 : OstreeRepoFinderResult :=
  example_result "file:///repo" 50 2147483649.

(** One second later still. *)
Definition result_2038_later : OstreeRepoFinderResult :=
  example_result "file:///repo" 50 2147483650.

(** A mount result and a config result equal on every key but the priority. *)
Definition mount_like_result : OstreeRepoFinderResult :=
  example_result "origin" mount_priority 0.

Definition config_like_result : OstreeRepoFinderResult :=
  example_result "origin" config_priority 0.

(** Two finders, the first of which fails, and one requested ref. *)
Definition two_finders : list OstreeRepoFinder :=
  [failing_finder; constant_finder [config_like_result]].

Definition one_ref : list string := ["app/stable"].

(** A removable volume mounted at [/run/media/usb].  Its [.ostree/repos]
    holds the refs [os/a] and [os/b], two links to one repository on the
    volume, and the ref [os/c], a link to a directory on another device. *)
Definition usb_dir : stat := {| st_mode := 16877; st_dev := 2049 |}.

Definition other_dir : stat := {| st_mode := 16877; st_dev := 64769 |}.

Definition usb_fs : FileSystem :=
  {| glnx_opendirat := fun base path =>
       match base with
       | None => if String.eqb path "/run/media/usb" then Some 3 else None
       | Some dfd =>
           if (dfd =? 3) && String.eqb path ".ostree/repos" then Some 4 else None
       end;
     glnx_fstat := fun dfd => if dfd =? 3 then Some usb_dir else None;
     glnx_fstatat := fun dfd path =>
       if negb (dfd =? 4) then None
       else if String.eqb path "os/a" || String.eqb path "os/b" then Some usb_dir
       else if String.eqb path "os/c" then Some other_dir
       else None;
     realpath := fun path =>
       if String.eqb path "/run/media/usb/.ostree/repos/os/a"
          || String.eqb path "/run/media/usb/.ostree/repos/os/b"
       then Some "/run/media/usb/repo"
       else None |}.

Definition usb_volume : GVolume :=
  {| g_volume_get_drive := Some {| g_drive_is_removable := true |};
     g_volume_get_mount := Some {| g_mount_get_root_path := "/run/media/usb" |};
     g_volume_get_name := "usb" |}.

Definition usb_repo_uri : string := "file:///run/media/usb/repo".

(** A repository with one configured remote, which lists [os/a]. *)
Definition origin_remote : OstreeRemote := example_remote "origin".

Definition one_remote_repo : OstreeRepo :=
  {| ostree_repo_remote_list := ["origin"];
     ostree_repo_remote_list_refs := fun n =>
       if String.eqb n "origin" then Some {[ "os/a" := "c0ffee" ]} else None;
     _ostree_repo_get_remote_inherited := fun n =>
       if String.eqb n "origin" then Some origin_remote else None |}.

(** The three results of the specification's sorting example. *)
Definition two_refs : gmap string (option string) :=
  {[ "os/a" := None; "os/b" := None ]}.

Definition R1 : OstreeRepoFinderResult :=
  {| remote := example_remote "b"; priority := 50;
     ref_to_checksum := two_refs; summary_last_modified := 0 |}.

Definition R2 : OstreeRepoFinderResult :=
  {| remote := example_remote "a"; priority := 50;
     ref_to_checksum := two_refs; summary_last_modified := 0 |}.

Definition R3 : OstreeRepoFinderResult :=
  {| remote := example_remote "c"; priority := 100;
     ref_to_checksum := {[ "os/a" := None ]}; summary_last_modified := 0 |}.

(** A table with one ref and no checksum for it. *)
Definition one_ref_table : gmap string (option string) :=
  {[ "app/stable" := None ]}.

(** Three results of one priority and one ref each: [result_x] and
    [result_z] carry timestamps, [result_y] does not. *)
Definition result_x : OstreeRepoFinderResult := example_result "x" 50 200.

Definition result_y : OstreeRepoFinderResult := example_result "y" 50 0.

Definition result_z : OstreeRepoFinderResult := example_result "z" 50 100.

(** Priorities whose differences fit a [gint]. *)
Definition small_priority (r : OstreeRepoFinderResult) : Prop :=
  - 2 ^ 30 <= priority r < 2 ^ 30.

Definition by_priority (a b : OstreeRepoFinderResult) : Prop :=
  priority a <= priority b.

(** The file system of the volume, with a [realpath] that always fails. *)
Definition no_realpath_fs : FileSystem :=
  {| glnx_opendirat := glnx_opendirat usb_fs;
     glnx_fstat := glnx_fstat usb_fs;
     glnx_fstatat := glnx_fstatat usb_fs;
     realpath := fun _ => None |}.

(** A volume of a drive that is not removable, and one without a mount. *)
Definition fixed_volume : GVolume :=
  {| g_volume_get_drive := Some {| g_drive_is_removable := false |};
     g_volume_get_mount := Some {| g_mount_get_root_path := "/run/media/usb" |};
     g_volume_get_name := "disk" |}.

Definition unmounted_volume : GVolume :=
  {| g_volume_get_drive := Some {| g_drive_is_removable := true |};
     g_volume_get_mount := None;
     g_volume_get_name := "ejected" |}.

(** A repository whose remotes are [origin], which lists [os/a], [mirror],
    whose refs cannot be loaded, and [stale], which lists [os/a] but has no
    configuration. *)
Definition three_remote_repo : OstreeRepo :=
  {| ostree_repo_remote_list := ["origin"; "mirror"; "stale"];
     ostree_repo_remote_list_refs := fun n =>
       if String.eqb n "origin" || String.eqb n "stale"
       then Some {[ "os/a" := "c0ffee" ]} else None;
     _ostree_repo_get_remote_inherited := fun n =>
       if String.eqb n "origin" then Some origin_remote else None |}.

(** A fourth result of that priority, with the latest timestamp. *)
Definition result_v : OstreeRepoFinderResult := example_result "v" 50 300.

(** A finder whose array is not sorted, and three finders: one that fails,
    one that returns a config result and a mount result, and that one. *)
Definition unsorted_finder : OstreeRepoFinder :=
  constant_finder [result_x; result_y; result_z; result_v].

Definition three_finders : list OstreeRepoFinder :=
  [failing_finder;
   constant_finder [config_like_result; mount_like_result];
   unsorted_finder].


(** A ref name with a byte that is not ASCII. *)
Definition latin1_name : string := String (ascii_of_nat 233) "t".

(** A valid ref name as the specification words it: non-empty and
    printable. *)
Definition printable_ref_name (r : string) : Prop :=
  r <> "" /\ Forall ascii_printable (chars r).



(** * Properties *)

(** ** Machine integers and bytes *)

Lemma to_gint_id z : is_gint z -> to_gint z = z.
Proof.
  unfold is_gint, GINT_MIN, GINT_MAX, to_gint. intros H.
  rewrite Z.mod_small; lia.
Qed.

Lemma to_gint_range z : is_gint (to_gint z).
Proof.
  unfold is_gint, GINT_MIN, GINT_MAX, to_gint.
  pose proof (Z.mod_pos_bound (z + 2 ^ 31) (2 ^ 32)). lia.
Qed.

Lemma to_gsize_id z : 0 <= z < 2 ^ 64 -> to_gsize z = z.
Proof. intros H. unfold to_gsize. rewrite Z.mod_small; lia. Qed.

Lemma byte_range c : 0 <= byte c < 256.
Proof.
  unfold byte. pose proof (N_ascii_bounded c) as H. lia.
Qed.

Lemma byte_inj c d : byte c = byte d -> c = d.
Proof.
  unfold byte. intros H. apply N2Z.inj in H.
  rewrite <- (ascii_N_embedding c), <- (ascii_N_embedding d). now rewrite H.
Qed.

Lemma high_bit_clear c : (Z.land (byte c) 128 =? 0) = true <-> byte c < 128.
Proof.
  destruct c as [[] [] [] [] [] [] [] []]; vm_compute; split; congruence.
Qed.

(** ** Ref validation *)

Lemma g_str_is_ascii_spec s :
  g_str_is_ascii s = true <-> Forall (fun c => byte c < 128) (chars s).
Proof.
  induction s as [|c r IH]; simpl.
  - split; [constructor | reflexivity].
  - destruct (Z.land (byte c) 128 =? 0) eqn:E.
    + rewrite IH. apply high_bit_clear in E. split.
      * intros H. now constructor.
      * intros H. now inversion H.
    + split; [discriminate|]. intros H. inversion H as [|? ? Hc _]; subst.
      apply high_bit_clear in Hc. congruence.
Qed.

Lemma is_empty_string_spec s : is_empty_string s = true <-> s = "".
Proof. destruct s; simpl; split; congruence. Qed.

(** C8, as stated, fails: a name made of a control character is accepted,
    although it is not printable. *)
Lemma is_valid_ref_name_not_printable_only :
  ~ (forall name : string,
       is_valid_ref_name (Some name) = true <->
       name <> "" /\ Forall ascii_printable (chars name)).
Proof.
  intros H. destruct (H tab_name) as [Hacc _].
  destruct (Hacc eq_refl) as [_ Hp].
  inversion Hp as [|? ? Hc _]; subst.
  unfold ascii_printable in Hc. vm_compute in Hc. destruct Hc as [Hc _].
  apply Hc. reflexivity.
Qed.

(** C8 (amended): [is_valid_ref_name] accepts a name exactly when it is
    non-empty and every byte of it is ASCII, that is below 128.  Control
    characters are accepted; only bytes with the high bit set are rejected. *)
Theorem is_valid_ref_name_iff_ascii (name : string) :
  is_valid_ref_name (Some name) = true <->
  name <> "" /\ Forall (fun c => byte c < 128) (chars name).
Proof.
  unfold is_valid_ref_name. rewrite andb_true_iff, negb_true_iff.
  rewrite g_str_is_ascii_spec. split.
  - intros [He Ha]. split; [|exact Ha]. intros ->. discriminate.
  - intros [He Ha]. split; [|exact Ha].
    destruct name; [congruence | reflexivity].
Qed.

Lemma is_valid_ref_array_loop_spec l :
  is_valid_ref_array_loop l = true <->
  Forall (fun r => is_valid_ref_name (Some r) = true) l.
Proof.
  induction l as [|r rest IH]; cbn [is_valid_ref_array_loop].
  - split; [constructor | reflexivity].
  - destruct (is_valid_ref_name (Some r)) eqn:E; cbn [negb].
    + rewrite IH. split; intros H; [now constructor | now inversion H].
    + split; [discriminate|]. intros H. inversion H; congruence.
Qed.

Lemma is_valid_ref_array_spec refs :
  is_valid_ref_array refs = true <->
  exists l, refs = Some l /\ l <> [] /\
            Forall (fun r => is_valid_ref_name (Some r) = true) l.
Proof.
  destruct refs as [[|r rest]|]; simpl.
  - split; [discriminate|]. intros (l & [= <-] & Hne & _). congruence.
  - change (is_valid_ref_array_loop (r :: rest) = true <->
            exists l, Some (r :: rest) = Some l /\ l <> [] /\
              Forall (fun r => is_valid_ref_name (Some r) = true) l).
    rewrite is_valid_ref_array_loop_spec. split.
    + intros H. exists (r :: rest). repeat split; [discriminate | exact H].
    + intros (l & [= <-] & _ & H). exact H.
  - split; [discriminate|]. intros (l & [=] & _).
Qed.

Lemma g_str_is_ascii_false s :
  g_str_is_ascii s = false <-> List.Exists (fun c => 128 <= byte c) (chars s).
Proof.
  induction s as [|c r IH]; simpl.
  - split; [discriminate | intros H; inversion H].
  - destruct (Z.land (byte c) 128 =? 0) eqn:E.
    + rewrite IH. apply high_bit_clear in E. split.
      * intros H. now right.
      * intros H. inversion H; subst; [lia | assumption].
    + split; [|reflexivity]. intros _. left.
      destruct (Z_lt_le_dec (byte c) 128) as [Hlt|Hle]; [|exact Hle].
      apply high_bit_clear in Hlt. congruence.
Qed.

Lemma is_valid_ref_name_false r :
  is_valid_ref_name (Some r) = false <->
  r = "" \/ List.Exists (fun c => 128 <= byte c) (chars r).
Proof.
  unfold is_valid_ref_name. rewrite andb_false_iff, negb_false_iff.
  rewrite is_empty_string_spec, g_str_is_ascii_false. reflexivity.
Qed.

Lemma is_valid_ref_array_loop_false l :
  is_valid_ref_array_loop l = false <->
  exists r, In r l /\ is_valid_ref_name (Some r) = false.
Proof.
  induction l as [|r rest IH]; cbn [is_valid_ref_array_loop].
  - split; [discriminate | intros (r & [] & _)].
  - destruct (is_valid_ref_name (Some r)) eqn:E; cbn [negb].
    + rewrite IH. split.
      * intros (r' & Hin & Hr'). exists r'. split; [now right | exact Hr'].
      * intros (r' & [<-|Hin] & Hr'); [congruence|]. now exists r'.
    + split; [|reflexivity]. intros _. exists r. split; [now left | exact E].
Qed.

Lemma is_valid_ref_array_false refs :
  is_valid_ref_array refs = false <->
  refs = None \/ refs = Some [] \/
  exists l r, refs = Some l /\ In r l /\
    (r = "" \/ List.Exists (fun c => 128 <= byte c) (chars r)).
Proof.
  destruct refs as [[|r rest]|]; cbn [is_valid_ref_array].
  - split; auto.
  - rewrite is_valid_ref_array_loop_false. split.
    + intros (r' & Hin & Hr'). right. right. exists (r :: rest), r'.
      split; [reflexivity|]. split; [exact Hin|].
      now apply is_valid_ref_name_false.
    + intros [H|[H|(l & r' & [= <-] & Hin & Hr')]]; try discriminate.
      exists r'. split; [exact Hin|]. now apply is_valid_ref_name_false.
  - split; auto.
Qed.

(** C7, as stated, fails: a ref name that is not printable does not make the
    call fail.  With the name made of a horizontal tab no check fails, the
    finder is invoked, and the task is created. *)
Lemma resolve_all_accepts_unprintable_ref :
  ~ (forall (finders : list OstreeRepoFinder) (refs : list string),
       finders = [] \/ refs = [] \/
       (exists r, In r refs /\ ~ printable_ref_name r) ->
       let call :=
         ostree_repo_finder_resolve_all_async (Some finders) (Some refs) in
       call_criticals call <> [] /\ call_invoked call = []).
Proof.
  intros H.
  destruct (H [failing_finder] [tab_name]) as [Hcrit _].
  - right. right. exists tab_name. split; [now left|].
    intros [_ Hp]. inversion Hp as [|? ? Hc _]; subst.
    unfold ascii_printable in Hc. vm_compute in Hc. destruct Hc as [Hc _].
    apply Hc. reflexivity.
  - apply Hcrit. reflexivity.
Qed.

(** C7 (amended): [ostree_repo_finder_resolve_all_async] refuses a call
    exactly when the finders are NULL or none, the refs are NULL or none, or
    one of the ref names is empty or has a byte that is not ASCII.  The
    refusal is a failed [g_return_if_fail] check: the check is reported and
    the function, which returns nothing, returns at once, before any finder
    is invoked and before the task is created, so no error value exists and
    no callback is ever called. *)
Theorem resolve_all_rejects_invalid_input
    (finders : option (list OstreeRepoFinder)) (refs : option (list string)) :
  let call := ostree_repo_finder_resolve_all_async finders refs in
  (finders = None \/ finders = Some [] \/
   refs = None \/ refs = Some [] \/
   (exists l r, refs = Some l /\ In r l /\
      (r = "" \/ List.Exists (fun c => 128 <= byte c) (chars r))))
  <->
  ((exists check, call_criticals call = [check]) /\
   call_invoked call = [] /\
   call_task call = None).
Proof.
  intros call. subst call. unfold ostree_repo_finder_resolve_all_async.
  pose proof (is_valid_ref_array_false refs) as Hfalse.
  destruct finders as [[|f fs]|].
  - split; [|auto]. intros _. cbn. eauto.
  - destruct (is_valid_ref_array refs) eqn:Hv; cbn [negb].
    + destruct (resolve_all_start_loop (f :: fs) [] _) as [invoked data].
      cbn [call_criticals call_invoked call_task]. split.
      * intros [H|[H|H]]; try discriminate.
        assert (true = false) by (apply Hfalse; tauto). discriminate.
      * intros [(check & Hc) _]. discriminate.
    + split; [|intros _; right; right; now apply Hfalse].
      intros _. cbn. eauto.
  - split; [|auto]. intros _. cbn. eauto.
Qed.

Lemma resolve_all_rejects_invalid_input_witness :
  let rejected call :=
    (exists check, call_criticals call = [check]) /\
    call_invoked call = [] /\ call_task call = None in
  rejected (ostree_repo_finder_resolve_all_async (Some []) (Some ["ref"])) /\
  rejected (ostree_repo_finder_resolve_all_async (Some [failing_finder]) (Some [])) /\
  rejected (ostree_repo_finder_resolve_all_async
              (Some [failing_finder]) (Some ["ref"; latin1_name; ""])).
Proof.
  intros rejected. subst rejected. cbv beta. split; [|split].
  - apply (proj1 (resolve_all_rejects_invalid_input (Some []) (Some ["ref"]))).
    right. left. reflexivity.
  - apply (proj1 (resolve_all_rejects_invalid_input
                    (Some [failing_finder]) (Some []))).
    right. right. right. left. reflexivity.
  - apply (proj1 (resolve_all_rejects_invalid_input
                    (Some [failing_finder]) (Some ["ref"; latin1_name; ""]))).
    right. right. right. right.
    exists ["ref"; latin1_name; ""], latin1_name.
    split; [reflexivity|]. split; [simpl; auto|].
    right. left. vm_compute. discriminate.
Defined.

(** ** The comparator *)

Lemma to_gint_to_guint64 z : to_gint (to_guint64 z) = to_gint z.
Proof.
  unfold to_gint, to_guint64. f_equal.
  rewrite (Z.div_mod z (2 ^ 64)) at 2 by lia.
  replace (2 ^ 64 * (z / 2 ^ 64) + z mod 2 ^ 64 + 2 ^ 31)
    with (z mod 2 ^ 64 + 2 ^ 31 + (2 ^ 32 * (z / 2 ^ 64)) * 2 ^ 32) by lia.
  now rewrite Z_mod_plus_full.
Qed.

Lemma sign_of_sub x y : sign_of (x - y) = (x ?= y).
Proof. unfold sign_of. symmetry. apply Z.compare_sub. Qed.

Lemma strcmp_sign s1 s2 :
  is_c_string s1 -> is_c_string s2 ->
  sign_of (strcmp s1 s2) = string_lex s1 s2.
Proof.
  revert s2. induction s1 as [|c1 r1 IH]; intros [|c2 r2] H1 H2; simpl.
  - reflexivity.
  - inversion H2 as [|? ? Hc _]; subst. pose proof (byte_range c2).
    unfold sign_of. apply Z.compare_lt_iff. lia.
  - inversion H1 as [|? ? Hc _]; subst. pose proof (byte_range c1).
    unfold sign_of. apply Z.compare_gt_iff. lia.
  - inversion H1; inversion H2; subst.
    destruct (byte c1 =? byte c2) eqn:E.
    + apply Z.eqb_eq in E. rewrite E, Z.compare_refl. now apply IH.
    + rewrite sign_of_sub. apply Z.eqb_neq in E.
      destruct (byte c1 ?= byte c2) eqn:C; try reflexivity.
      apply Z.compare_eq in C. contradiction.
Qed.

Lemma g_strcmp0_sign n1 n2 :
  name_is_c_string n1 -> name_is_c_string n2 ->
  sign_of (g_strcmp0 n1 n2) = name_lex n1 n2.
Proof.
  destruct n1, n2; simpl; intros H1 H2; try reflexivity.
  now apply strcmp_sign.
Qed.

(** Away from the conversions that lose information, the comparator is the
    key cascade of the specification. *)
Lemma compare_is_cascade_in_range a b :
  compare_in_range a b ->
  sign_of (ostree_repo_finder_result_compare (Some a) (Some b))
  = compare_cascade a b.
Proof.
  intros (Hp & Hs & Ha & Hb & Hna & Hnb).
  unfold ostree_repo_finder_result_compare, compare_cascade.
  destruct (priority a =? priority b) eqn:Ep; cbn [negb].
  - apply Z.eqb_eq in Ep. rewrite Ep, Z.compare_refl.
    assert (Hrefs :
      sign_of
        (let a_n_refs := g_hash_table_size (ref_to_checksum a) in
         let b_n_refs := g_hash_table_size (ref_to_checksum b) in
         if negb (a_n_refs =? b_n_refs)
         then to_gint (to_gint a_n_refs - to_gint b_n_refs)
         else g_strcmp0 (remote_name (remote a)) (remote_name (remote b)))
      = match Z.of_nat (size (ref_to_checksum a))
              ?= Z.of_nat (size (ref_to_checksum b)) with
        | Eq => name_lex (remote_name (remote a)) (remote_name (remote b))
        | o => o
        end).
    { cbv zeta. unfold g_hash_table_size, to_guint.
      unfold GINT_MAX in Ha, Hb.
      set (na := Z.of_nat (size (ref_to_checksum a))) in *.
      set (nb := Z.of_nat (size (ref_to_checksum b))) in *.
      assert (0 <= na) by apply Nat2Z.is_nonneg.
      assert (0 <= nb) by apply Nat2Z.is_nonneg.
      clearbody na nb.
      rewrite (Z.mod_small na), (Z.mod_small nb) by lia.
      rewrite (to_gint_id na), (to_gint_id nb), (to_gint_id (na - nb))
        by (unfold is_gint, GINT_MIN, GINT_MAX; lia).
      destruct (na =? nb) eqn:En; cbn [negb].
      - apply Z.eqb_eq in En. rewrite En, Z.compare_refl.
        now apply g_strcmp0_sign.
      - rewrite sign_of_sub. apply Z.eqb_neq in En.
        destruct (na ?= nb) eqn:C; try reflexivity.
        apply Z.compare_eq in C. contradiction. }
    destruct (summary_last_modified a =? 0); cbn [negb andb]; [exact Hrefs|].
    destruct (summary_last_modified b =? 0); cbn [negb andb]; [exact Hrefs|].
    destruct (summary_last_modified a =? summary_last_modified b) eqn:Es;
      cbn [negb].
    + apply Z.eqb_eq in Es. rewrite Es, Z.compare_refl. exact Hrefs.
    + rewrite to_gint_to_guint64, to_gint_id by exact Hs.
      rewrite sign_of_sub. apply Z.eqb_neq in Es.
      destruct (summary_last_modified a ?= summary_last_modified b) eqn:C;
        try reflexivity.
      apply Z.compare_eq in C. contradiction.
  - rewrite to_gint_id by exact Hp. rewrite sign_of_sub.
    apply Z.eqb_neq in Ep.
    destruct (priority a ?= priority b) eqn:C; try reflexivity.
    apply Z.compare_eq in C. contradiction.
Qed.

Lemma string_lex_swap s1 s2 : string_lex s2 s1 = CompOpp (string_lex s1 s2).
Proof.
  revert s2. induction s1 as [|c1 r1 IH]; intros [|c2 r2]; simpl; try reflexivity.
  rewrite (Z.compare_antisym (byte c1) (byte c2)).
  destruct (byte c1 ?= byte c2); simpl; auto.
Qed.

Lemma compare_cascade_swap a b :
  compare_cascade b a = CompOpp (compare_cascade a b).
Proof.
  unfold compare_cascade.
  rewrite (Z.compare_antisym (priority a) (priority b)).
  destruct (priority a ?= priority b); simpl; try reflexivity.
  rewrite (Z.compare_antisym (summary_last_modified a) (summary_last_modified b)).
  rewrite (Z.compare_antisym (Z.of_nat (size (ref_to_checksum a)))
                             (Z.of_nat (size (ref_to_checksum b)))).
  assert (Hn : name_lex (remote_name (remote b)) (remote_name (remote a))
               = CompOpp (name_lex (remote_name (remote a))
                                   (remote_name (remote b)))).
  { destruct (remote_name (remote a)), (remote_name (remote b)); simpl;
      try reflexivity. apply string_lex_swap. }
  rewrite Hn.
  destruct (summary_last_modified a =? 0), (summary_last_modified b =? 0);
    simpl;
    destruct (summary_last_modified a ?= summary_last_modified b);
    destruct (Z.of_nat (size (ref_to_checksum a))
              ?= Z.of_nat (size (ref_to_checksum b)));
    reflexivity.
Qed.

(** Away from the conversions that lose information, swapping the arguments
    of the comparator swaps the sign of its value. *)
Lemma compare_swap_in_range a b :
  compare_in_range a b -> compare_in_range b a ->
  sign_of (ostree_repo_finder_result_compare (Some b) (Some a))
  = CompOpp (sign_of (ostree_repo_finder_result_compare (Some a) (Some b))).
Proof.
  intros Hab Hba.
  rewrite !compare_is_cascade_in_range by assumption.
  apply compare_cascade_swap.
Qed.

(** The sorting example of the specification: the name breaks the tie
    between [R1] and [R2], and the priority puts [R3] last. *)
Example sort_example :
  g_ptr_array_sort sort_results_cb [R1; R2; R3] = [R2; R1; R3].
Proof. vm_compute. reflexivity. Qed.

(** C2: the comparator departs from the key cascade when two timestamps are
    far apart.  Both results below are tied on priority and carry known,
    different timestamps; the cascade puts the older one first, the code
    returns a positive value and so puts the newer one first. *)
Theorem compare_timestamp_order_reversed :
  result_wf result_1970 /\ result_wf result_2038_later /\
  compare_cascade result_1970 result_2038_later = Lt /\
  ostree_repo_finder_result_compare (Some result_1970) (Some result_2038_later)
  = 2147483647.
Proof.
  repeat split; try (vm_compute; congruence).
Qed.

(** C9: swapping the arguments does not swap the sign when the timestamps are
    2^31 apart: the comparator is negative both ways round. *)
Theorem compare_negative_both_ways :
  result_wf result_1970 /\ result_wf result_2038 /\
  ostree_repo_finder_result_compare (Some result_1970) (Some result_2038) < 0 /\
  ostree_repo_finder_result_compare (Some result_2038) (Some result_1970) < 0.
Proof.
  repeat split; try (vm_compute; congruence).
Qed.

(** ** The aggregation *)

Lemma msort_merge_perm {A} (cmp : A -> A -> Z) b1 b2 :
  Permutation (msort_merge cmp b1 b2) (b1 ++ b2).
Proof.
  revert b2. induction b1 as [|x1 r1 IH1]; intros b2.
  - destruct b2; apply Permutation_refl.
  - induction b2 as [|x2 r2 IH2].
    + simpl. rewrite app_nil_r. apply Permutation_refl.
    + simpl. destruct (cmp x1 x2 <=? 0).
      * apply perm_skip. apply IH1.
      * eapply Permutation_trans; [apply perm_skip, IH2|].
        apply (Permutation_middle (x1 :: r1) r2 x2).
Qed.

Lemma half_bounds n : (2 <= n)%nat -> (1 <= n / 2 /\ n / 2 < n)%nat.
Proof.
  intros H. split.
  - apply Nat.div_str_pos. lia.
  - apply Nat.div_lt; lia.
Qed.

Lemma msort_with_tmp_perm {A} (cmp : A -> A -> Z) fuel b :
  Permutation (msort_with_tmp fuel cmp b) b.
Proof.
  revert b. induction fuel as [|fuel IH]; intros b; cbn [msort_with_tmp].
  - apply Permutation_refl.
  - destruct (length b <=? 1)%nat; [apply Permutation_refl|].
    eapply Permutation_trans; [apply msort_merge_perm|].
    transitivity (firstn (length b / 2) b ++ skipn (length b / 2) b).
    + apply Permutation_app; apply IH.
    + now rewrite firstn_skipn.
Qed.


(** The bound on the depth is immaterial once it reaches the length. *)
Lemma msort_with_tmp_fuel {A} (cmp : A -> A -> Z) fuel1 fuel2 b :
  (length b <= fuel1)%nat -> (length b <= fuel2)%nat ->
  msort_with_tmp fuel1 cmp b = msort_with_tmp fuel2 cmp b.
Proof.
  revert fuel2 b. induction fuel1 as [|fuel1 IH]; intros fuel2 b H1 H2.
  - destruct b; [|simpl in H1; lia]. now destruct fuel2.
  - destruct fuel2 as [|fuel2].
    + destruct b; [reflexivity | simpl in H2; lia].
    + cbn [msort_with_tmp]. destruct (length b <=? 1)%nat eqn:E; [reflexivity|].
      apply Nat.leb_gt in E.
      destruct (half_bounds (length b)) as [Hlo Hhi]; [lia|].
      f_equal; apply IH; rewrite ?length_firstn, ?length_skipn; lia.
Qed.

Lemma msort_merge_hd {A} (R : A -> A -> Prop) (cmp : A -> A -> Z) a b1 b2 :
  HdRel R a b1 -> HdRel R a b2 -> HdRel R a (msort_merge cmp b1 b2).
Proof.
  intros H1 H2. destruct b1 as [|x1 r1], b2 as [|x2 r2]; simpl; auto.
  destruct (cmp x1 x2 <=? 0); constructor.
  - now inversion H1.
  - now inversion H2.
Qed.

(** Merging two arrays, each of which has every element related to its
    successor, gives such an array, if the callback decides as the relation
    does on the pairs it is asked about. *)
Lemma msort_merge_sorted {A} (R : A -> A -> Prop) (cmp : A -> A -> Z) b1 b2 :
  (forall a b, In a b1 -> In b b2 -> comparator_agrees R cmp a b) ->
  Sorted R b1 -> Sorted R b2 -> Sorted R (msort_merge cmp b1 b2).
Proof.
  revert b2. induction b1 as [|x1 r1 IH1]; intros b2 Hag S1 S2.
  - now destruct b2.
  - induction b2 as [|x2 r2 IH2]; [exact S1|].
    simpl. destruct (cmp x1 x2 <=? 0) eqn:E.
    + apply Z.leb_le in E. inversion S1 as [|? ? S1' H1]; subst.
      constructor.
      * apply IH1; auto. intros a b Ha Hb. apply Hag; [now right | exact Hb].
      * apply msort_merge_hd; [exact H1|]. constructor.
        apply (Hag x1 x2); [now left | now left | exact E].
    + apply Z.leb_gt in E. inversion S2 as [|? ? S2' H2]; subst.
      constructor.
      * apply IH2; auto. intros a b Ha Hb. apply Hag; [exact Ha | now right].
      * apply (msort_merge_hd R cmp x2 (x1 :: r1) r2); [|exact H2]. constructor.
        apply (Hag x1 x2); [now left | now left | exact E].
Qed.

Lemma msort_with_tmp_sorted {A} (R : A -> A -> Prop) (cmp : A -> A -> Z) fuel b :
  (length b <= fuel)%nat ->
  (forall a c, In a b -> In c b -> comparator_agrees R cmp a c) ->
  Sorted R (msort_with_tmp fuel cmp b).
Proof.
  revert b. induction fuel as [|fuel IH]; intros b Hlen Hag.
  - destruct b; [constructor | simpl in Hlen; lia].
  - cbn [msort_with_tmp]. destruct (length b <=? 1)%nat eqn:E.
    + apply Nat.leb_le in E. destruct b as [|x [|y r]]; simpl in E; try lia;
        repeat constructor.
    + apply Nat.leb_gt in E.
      destruct (half_bounds (length b)) as [Hlo Hhi]; [lia|].
      assert (Hin1 : forall a, In a (firstn (length b / 2) b) -> In a b).
      { intros a Ha. rewrite <- (firstn_skipn (length b / 2) b).
        apply in_or_app. now left. }
      assert (Hin2 : forall a, In a (skipn (length b / 2) b) -> In a b).
      { intros a Ha. rewrite <- (firstn_skipn (length b / 2) b).
        apply in_or_app. now right. }
      apply msort_merge_sorted.
      * intros a c Ha Hc. apply Hag.
        -- apply Hin1. eapply Permutation_in; [apply msort_with_tmp_perm | exact Ha].
        -- apply Hin2. eapply Permutation_in; [apply msort_with_tmp_perm | exact Hc].
      * apply IH; [rewrite length_firstn; lia | auto].
      * apply IH; [rewrite length_skipn; lia | auto].
Qed.

(** The sorted array has every element related to its successor, for every
    relation that the callback decides on the elements of the array.  The
    callback need not be transitive. *)
Lemma g_ptr_array_sort_sorted {A} (R : A -> A -> Prop) (cmp : A -> A -> Z) l :
  (forall a c, In a l -> In c l -> comparator_agrees R cmp a c) ->
  Sorted R (g_ptr_array_sort cmp l).
Proof. intros H. apply msort_with_tmp_sorted; [reflexivity | exact H]. Qed.

(** Where the relation is transitive on the elements, each element is
    related to all that follow it. *)
Lemma Sorted_strongly {A} (R : A -> A -> Prop) (P : A -> Prop) l :
  (forall a b c, P a -> P b -> P c -> R a b -> R b c -> R a c) ->
  List.Forall P l -> Sorted R l -> StronglySorted R l.
Proof.
  intros Htrans HP HS. induction HS as [|a l HS IH Hd]; [constructor|].
  inversion HP as [|? ? Pa Pl]; subst.
  specialize (IH Pl). constructor; [exact IH|].
  destruct Hd as [|b l Hab]; [constructor|].
  inversion IH as [|? ? _ Hb]; subst. inversion Pl as [|? ? Pb Pl']; subst.
  constructor; [exact Hab|].
  rewrite List.Forall_forall in *. intros c Hc.
  apply (Htrans a b c); auto.
Qed.

Lemma compare_le_priority a b :
  small_priority a -> small_priority b ->
  sort_results_cb a b <= 0 -> by_priority a b.
Proof.
  unfold small_priority, by_priority, sort_results_cb,
    ostree_repo_finder_result_compare.
  intros Ha Hb. destruct (priority a =? priority b) eqn:E; cbn [negb].
  - apply Z.eqb_eq in E. lia.
  - rewrite to_gint_id by (unfold is_gint, GINT_MIN, GINT_MAX; lia). lia.
Qed.

Lemma compare_gt_priority a b :
  small_priority a -> small_priority b ->
  0 < sort_results_cb a b -> by_priority b a.
Proof.
  unfold small_priority, by_priority, sort_results_cb,
    ostree_repo_finder_result_compare.
  intros Ha Hb. destruct (priority a =? priority b) eqn:E; cbn [negb].
  - apply Z.eqb_eq in E. lia.
  - rewrite to_gint_id by (unfold is_gint, GINT_MIN, GINT_MAX; lia). lia.
Qed.

Lemma g_ptr_array_sort_by_priority l :
  List.Forall small_priority l ->
  StronglySorted by_priority (g_ptr_array_sort sort_results_cb l).
Proof.
  intros Hsmall.
  apply (Sorted_strongly by_priority (fun _ => True)).
  - unfold by_priority. intros; lia.
  - apply List.Forall_forall. auto.
  - apply g_ptr_array_sort_sorted. intros a c Ha Hc.
    rewrite List.Forall_forall in Hsmall. split.
    + apply compare_le_priority; auto.
    + apply compare_gt_priority; auto.
Qed.









Lemma resolve_all_start_loop_spec finders invoked data :
  0 <= n_finders_pending data ->
  n_finders_pending data + Z.of_nat (length finders) < 2 ^ 64 ->
  resolve_all_start_loop finders invoked data
  = (invoked ++ finders,
     {| n_finders_pending := n_finders_pending data + Z.of_nat (length finders);
        results := results data |}).
Proof.
  revert invoked data.
  induction finders as [|f rest IH]; intros invoked data H0 Hlt.
  - simpl. rewrite app_nil_r, Z.add_0_r. now destruct data.
  - cbn [resolve_all_start_loop].
    change (length (f :: rest)) with (S (length rest)) in *.
    rewrite Nat2Z.inj_succ in *.
    rewrite IH; cbn [n_finders_pending results].
    + rewrite to_gsize_id by lia. rewrite <- app_assoc. simpl.
      do 2 f_equal. lia.
    + rewrite to_gsize_id by lia. lia.
    + rewrite to_gsize_id by lia. lia.
Qed.

(** The task once the call has returned: every finder is pending, nothing
    has been collected, nothing has been returned. *)
Lemma resolve_all_async_started finders refs :
  finders <> [] ->
  is_valid_ref_array (Some refs) = true ->
  Z.of_nat (length finders) + 1 < 2 ^ 64 ->
  ostree_repo_finder_resolve_all_async (Some finders) (Some refs)
  = {| call_criticals := [];
       call_invoked := finders;
       call_task :=
         Some {| task_data :=
                   {| n_finders_pending := Z.of_nat (length finders);
                      results := Some [] |};
                 task_returned := [] |} |}.
Proof.
  intros Hne Hv Hlt. unfold ostree_repo_finder_resolve_all_async.
  destruct finders as [|f rest]; [congruence|].
  rewrite Hv. cbn [negb].
  rewrite resolve_all_start_loop_spec; cbn [n_finders_pending results]; try lia.
  unfold resolve_all_finished_one. cbn [task_data n_finders_pending results task_returned].
  change (length (f :: rest)) with (S (length rest)) in *.
  rewrite Nat2Z.inj_succ in *.
  rewrite to_gsize_id by lia.
  destruct (1 + Z.succ (Z.of_nat (length rest)) - 1 =? 0) eqn:E.
  - apply Z.eqb_eq in E. lia.
  - simpl. do 4 f_equal. lia.
Qed.

(** The state of the task after some of the pending queries have completed. *)
Lemma dispatch_completions_spec completions :
  forall n acc,
    Z.of_nat (length completions) <= n < 2 ^ 64 ->
    0 < n ->
    exists task,
      dispatch_completions completions
        {| task_data := {| n_finders_pending := n; results := Some acc |};
           task_returned := [] |} = Some task /\
      n_finders_pending (task_data task) = n - Z.of_nat (length completions) /\
      (Z.of_nat (length completions) < n ->
       results (task_data task) = Some (acc ++ successful_results completions) /\
       task_returned task = []) /\
      (Z.of_nat (length completions) = n ->
       results (task_data task) = None /\
       task_returned task
       = [g_ptr_array_sort sort_results_cb (acc ++ successful_results completions)]).
Proof.
  induction completions as [|o rest IH]; intros n acc Hn Hpos.
  - eexists. split; [reflexivity|]. cbn. repeat split; try lia.
    + now rewrite app_nil_r.
  - change (length (o :: rest)) with (S (length rest)) in *.
    rewrite Nat2Z.inj_succ in *.
    cbn [dispatch_completions].
    set (acc' := match o with inl _ => acc | inr rs => acc ++ rs end).
    assert (Hacc : acc' ++ successful_results rest
                   = acc ++ successful_results (o :: rest)).
    { subst acc'. destruct o; simpl; [reflexivity | now rewrite app_assoc]. }
    assert (Hcb : resolve_all_cb o
               {| task_data := {| n_finders_pending := n; results := Some acc |};
                  task_returned := [] |}
             = resolve_all_finished_one
                 {| task_data := {| n_finders_pending := n; results := Some acc' |};
                    task_returned := [] |}).
    { subst acc'. destruct o; reflexivity. }
    rewrite Hcb. unfold resolve_all_finished_one.
    cbn [task_data n_finders_pending results task_returned].
    rewrite to_gsize_id by lia.
    destruct (n - 1 =? 0) eqn:E.
    + apply Z.eqb_eq in E.
      assert (length rest = 0%nat) as Hrest by lia.
      destruct rest; [|discriminate].
      eexists. split; [reflexivity|]. cbn. repeat split; try lia.
      do 2 f_equal.
      transitivity (acc' ++ []); [symmetry; apply app_nil_r | exact Hacc].
    + apply Z.eqb_neq in E.
      destruct (IH (n - 1) acc') as (task & Hrun & Hcount & Hlt & Heq); try lia.
      exists task. split; [exact Hrun|]. rewrite <- Hacc.
      split; [lia|]. split; intros; [apply Hlt | apply Heq]; lia.
Qed.

(** A whole run, after [k] of the [n] started finders have completed. *)
Lemma resolve_all_run_spec finders refs completed :
  finders <> [] ->
  is_valid_ref_array (Some refs) = true ->
  Z.of_nat (length finders) + 1 < 2 ^ 64 ->
  (length completed <= length finders)%nat ->
  exists task,
    resolve_all_run finders refs completed = Some task /\
    n_finders_pending (task_data task)
    = Z.of_nat (length finders) - Z.of_nat (length completed) /\
    ((length completed < length finders)%nat -> task_returned task = []) /\
    (length completed = length finders ->
     task_returned task
     = [g_ptr_array_sort sort_results_cb
          (successful_results (map (fun f => iface_resolve f refs) completed))]).
Proof.
  intros Hne Hv Hlt Hk. unfold resolve_all_run.
  rewrite (resolve_all_async_started finders refs Hne Hv Hlt).
  cbn [call_task].
  assert (Hpos : 0 < Z.of_nat (length finders)).
  { destruct finders; [congruence | simpl; lia]. }
  destruct (dispatch_completions_spec
              (map (fun f => iface_resolve f refs) completed)
              (Z.of_nat (length finders)) [])
    as (task & Hrun & Hcount & Hbefore & Hlast).
  { rewrite length_map. lia. }
  { exact Hpos. }
  rewrite length_map in *.
  exists task. split; [exact Hrun|]. split; [exact Hcount|]. split.
  - intros Hless. apply Hbefore. lia.
  - intros Hall. apply Hlast. lia.
Qed.





(** The run of the specification's example: one finder fails, the other
    returns one result, and that result is what the caller gets. *)
Example resolve_all_partial_failure :
  option_map task_returned
    (resolve_all_run two_finders one_ref
       [constant_finder [config_like_result]; failing_finder])
  = Some [[config_like_result]].
Proof. reflexivity. Qed.

Example resolve_all_total_failure :
  option_map task_returned
    (resolve_all_run [failing_finder; failing_finder] one_ref
       [failing_finder; failing_finder])
  = Some [[]].
Proof. reflexivity. Qed.

(** ** The grouping of refs *)

Lemma mount_volume_results_open fs refs volume :
  mount_volume_results fs refs volume
  = match mount_volume_open fs volume with
    | Some (mount_root_path, repos_dfd, mount_root_stbuf) =>
        map mount_make_result
          (map_to_list
             (mount_refs_loop fs mount_root_path repos_dfd mount_root_stbuf refs ∅))
    | None => []
    end.
Proof.
  unfold mount_volume_results, mount_volume_open.
  destruct (g_volume_get_drive volume) as [drive|]; [|reflexivity].
  destruct (g_volume_get_mount volume) as [mount|]; [|reflexivity].
  destruct (negb (g_drive_is_removable drive)); [reflexivity|].
  destruct (glnx_opendirat fs None _) as [root_dfd|]; [|reflexivity].
  destruct (glnx_opendirat fs (Some root_dfd) _) as [repos_dfd|]; [|reflexivity].
  destruct (glnx_fstat fs root_dfd); reflexivity.
Qed.

Lemma mount_refs_loop_group fs p d st refs table :
  mount_refs_loop fs p d st refs table
  = group_refs (mount_resolve_ref fs p d st) refs table.
Proof.
  revert table. induction refs as [|r rest IH]; intros table; simpl.
  - reflexivity.
  - apply IH.
Qed.

Lemma config_refs_loop_group n remote_refs refs table :
  config_refs_loop n remote_refs refs table
  = group_refs (config_key_of n remote_refs) refs table.
Proof.
  revert table. induction refs as [|r rest IH]; intros table; simpl.
  - reflexivity.
  - rewrite IH. unfold config_key_of.
    destruct (bool_decide (is_Some (remote_refs !! r))); reflexivity.
Qed.

(** What the table holds for a key once the refs have been grouped: the
    array it held before, followed by the refs of the request with that key;
    no entry is created for a key that no ref has. *)
Lemma group_refs_lookup key_of refs table key :
  group_refs key_of refs table !! key
  = match refs_with_key key_of key refs with
    | [] => table !! key
    | l => Some (default [] (table !! key) ++ l)
    end.
Proof.
  revert table. unfold refs_with_key.
  induction refs as [|r rest IH]; intros table; simpl.
  - reflexivity.
  - rewrite IH. destruct (key_of r) as [k|] eqn:Ek.
    + destruct (decide (k = key)) as [->|Hne].
      * rewrite bool_decide_eq_true_2 by reflexivity.
        unfold add_supported_ref. rewrite lookup_insert_eq.
        replace (match table !! key with Some l => l | None => [] end)
          with (default [] (table !! key)) by (destruct (table !! key); reflexivity).
        simpl. destruct (List.filter _ rest).
        -- reflexivity.
        -- now rewrite <- app_assoc.
      * rewrite bool_decide_eq_false_2 by congruence.
        unfold add_supported_ref. rewrite lookup_insert_ne by exact Hne.
        reflexivity.
    + rewrite bool_decide_eq_false_2 by congruence. reflexivity.
Qed.

Lemma group_refs_lookup_empty key_of refs key l :
  group_refs key_of refs ∅ !! key = Some l ->
  l = refs_with_key key_of key refs /\ l <> [].
Proof.
  rewrite group_refs_lookup, lookup_empty. simpl.
  destruct (refs_with_key key_of key refs) eqn:E; [discriminate|].
  intros [= <-]. split; [reflexivity | discriminate].
Qed.

Lemma refs_with_key_in key_of key refs r :
  In r (refs_with_key key_of key refs) <-> In r refs /\ key_of r = Some key.
Proof.
  unfold refs_with_key. rewrite filter_In, bool_decide_eq_true. reflexivity.
Qed.

Lemma group_refs_without key_of refs table r :
  key_of r = None ->
  group_refs key_of refs table = group_refs key_of (without_ref r refs) table.
Proof.
  intros Hr. revert table. unfold without_ref.
  induction refs as [|r' rest IH]; intros table; simpl.
  - reflexivity.
  - destruct (String.eqb r' r) eqn:E; simpl.
    + apply String.eqb_eq in E. subst r'. rewrite Hr. apply IH.
    + apply IH.
Qed.


(** Among entries with distinct keys, exactly one has a given key. *)
Lemma filter_unique_key {V} (entries : list (string * V)) key v :
  NoDup (entries.*1) ->
  (key, v) ∈ entries ->
  List.filter (fun e => bool_decide (fst e = key)) entries = [(key, v)].
Proof.
  induction entries as [|[k w] rest IH]; intros Hnd Hin.
  - now apply elem_of_nil in Hin.
  - rewrite fmap_cons in Hnd. apply NoDup_cons in Hnd as [Hnotin Hnd].
    apply elem_of_cons in Hin as [Heq|Hin]; cbn [List.filter fst].
    + injection Heq as <- <-. rewrite bool_decide_eq_true_2 by reflexivity.
      f_equal. clear IH Hnd.
      induction rest as [|[k' w'] rest IH]; [reflexivity|].
      rewrite fmap_cons in Hnotin. apply not_elem_of_cons in Hnotin as [Hne Hnotin].
      cbn [List.filter fst]. rewrite bool_decide_eq_false_2 by (simpl in Hne; congruence).
      now apply IH.
    + rewrite bool_decide_eq_false_2.
      * now apply IH.
      * simpl. intros ->. apply Hnotin.
        apply list_elem_of_fmap. exists (key, v). now split.
Qed.

Lemma filter_map_swap {A B} (f : A -> B) (p : B -> bool) (l : list A) :
  List.filter p (map f l) = map f (List.filter (fun x => p (f x)) l).
Proof.
  induction l as [|x rest IH]; simpl; [reflexivity|].
  rewrite IH. now destruct (p (f x)).
Qed.

Lemma extend_entry_lookup key_of refs table key :
  group_refs key_of refs table !! key
  = extend_entry (table !! key) (refs_with_key key_of key refs).
Proof.
  rewrite group_refs_lookup. unfold extend_entry.
  now destruct (refs_with_key key_of key refs).
Qed.

Lemma extend_entry_app entry l1 l2 :
  extend_entry (extend_entry entry l1) l2 = extend_entry entry (l1 ++ l2).
Proof.
  destruct l1 as [|x l1]; [reflexivity|].
  destruct l2 as [|y l2]; simpl.
  - now rewrite app_nil_r.
  - now rewrite <- app_assoc.
Qed.

(** ** The mount finder *)

(** The results of a volume that is scanned: for each repository URI that
    some requested ref resolves to, one result, with the refs resolving to
    it. *)
Lemma mount_volume_results_named fs refs volume p d st uri :
  mount_volume_open fs volume = Some (p, d, st) ->
  refs_with_key (mount_resolve_ref fs p d st) uri refs <> [] ->
  List.filter (named uri) (mount_volume_results fs refs volume)
  = [mount_make_result
       (uri, refs_with_key (mount_resolve_ref fs p d st) uri refs)].
Proof.
  intros Hopen Hne.
  rewrite mount_volume_results_open, Hopen, mount_refs_loop_group.
  rewrite filter_map_swap.
  erewrite (filter_ext _ (fun e => bool_decide (fst e = uri))).
  - erewrite filter_unique_key; [reflexivity | apply NoDup_fst_map_to_list |].
    apply elem_of_map_to_list. rewrite extend_entry_lookup, lookup_empty.
    destruct (refs_with_key _ uri refs); [congruence | reflexivity].
  - intros [k l]. unfold named. simpl.
    apply bool_decide_ext. split; congruence.
Qed.

Lemma mount_volume_results_in fs refs volume p d st c :
  mount_volume_open fs volume = Some (p, d, st) ->
  In c (mount_volume_results fs refs volume) ->
  exists uri,
    c = mount_make_result
          (uri, refs_with_key (mount_resolve_ref fs p d st) uri refs) /\
    refs_with_key (mount_resolve_ref fs p d st) uri refs <> [].
Proof.
  intros Hopen Hin.
  rewrite mount_volume_results_open, Hopen, mount_refs_loop_group in Hin.
  apply in_map_iff in Hin as ([uri l] & <- & Hin).
  apply list_elem_of_In, elem_of_map_to_list, group_refs_lookup_empty in Hin.
  destruct Hin as [-> Hne]. now exists uri.
Qed.

Lemma mount_volume_results_priority fs refs volume c :
  In c (mount_volume_results fs refs volume) ->
  arg_priority c = mount_priority.
Proof.
  rewrite mount_volume_results_open.
  destruct (mount_volume_open fs volume) as [[[p d] st]|]; [|intros []].
  intros Hin. apply in_map_iff in Hin as ([uri l] & <- & _). reflexivity.
Qed.

Lemma mount_resolve_ref_cross_device fs p d st r stbuf :
  glnx_fstatat fs d r = Some stbuf ->
  st_dev stbuf <> st_dev st ->
  mount_resolve_ref fs p d st r = None.
Proof.
  intros Hstat Hdev. unfold mount_resolve_ref. rewrite Hstat.
  destruct (negb (Z.land (st_mode stbuf) S_IFMT =? S_IFDIR)); [reflexivity|].
  apply Z.eqb_neq in Hdev. now rewrite Hdev.
Qed.



Example mount_coalesces_links :
  map arg_refs (mount_volume_results usb_fs ["os/a"; "os/b"; "os/c"] usb_volume)
  = [["os/a"; "os/b"]].
Proof. vm_compute. reflexivity. Qed.

(** C5: on a volume that is scanned, a ref whose directory is on another
    device than the mount root is left out: no result of the volume lists it,
    and the volume adds the results it would add if the ref had not been
    requested, so the other refs are still processed.  The call itself
    returns its results, not an error. *)
Theorem mount_cross_device_ref_excluded
    (fs : FileSystem) (volumes : list GVolume) (refs : list string)
    (volume : GVolume) (p : string) (d : Z) (st : stat)
    (r : string) (stbuf : stat) :
  mount_volume_open fs volume = Some (p, d, st) ->
  glnx_fstatat fs d r = Some stbuf ->
  st_dev stbuf <> st_dev st ->
  (forall c, In c (mount_volume_results fs refs volume) -> ~ In r (arg_refs c)) /\
  mount_volume_results fs refs volume
  = mount_volume_results fs (without_ref r refs) volume /\
  exists rs, ostree_repo_finder_mount_resolve_async fs volumes refs = inr rs.
Proof.
  intros Hopen Hstat Hdev.
  pose proof (mount_resolve_ref_cross_device fs p d st r stbuf Hstat Hdev) as Hnone.
  split; [|split].
  - intros c Hc Hin.
    destruct (mount_volume_results_in fs refs volume p d st c Hopen Hc)
      as (uri & -> & _).
    cbn [mount_make_result arg_refs] in Hin.
    apply refs_with_key_in in Hin as [_ Hkey]. congruence.
  - rewrite !mount_volume_results_open, Hopen, !mount_refs_loop_group.
    now rewrite (group_refs_without _ refs ∅ r Hnone).
  - eexists. reflexivity.
Qed.

Lemma mount_cross_device_ref_excluded_witness :
  (forall c, In c (mount_volume_results usb_fs ["os/a"; "os/c"] usb_volume) ->
             ~ In "os/c" (arg_refs c)) /\
  mount_volume_results usb_fs ["os/a"; "os/c"] usb_volume
  = mount_volume_results usb_fs (without_ref "os/c" ["os/a"; "os/c"]) usb_volume /\
  exists rs,
    ostree_repo_finder_mount_resolve_async usb_fs [usb_volume] ["os/a"; "os/c"] = inr rs.
Proof.
  apply (mount_cross_device_ref_excluded usb_fs [usb_volume] ["os/a"; "os/c"]
           usb_volume "/run/media/usb" 4 usb_dir "os/c" other_dir).
  - reflexivity.
  - reflexivity.
  - vm_compute. discriminate.
Defined.

(** ** The config finder *)

Lemma refs_with_key_config n remote_refs refs key :
  refs_with_key (config_key_of n remote_refs) key refs
  = if decide (n = key)
    then List.filter (fun r => bool_decide (is_Some (remote_refs !! r))) refs
    else [].
Proof.
  unfold refs_with_key, config_key_of.
  induction refs as [|r rest IH]; simpl.
  - now destruct (decide (n = key)).
  - rewrite IH. destruct (bool_decide (is_Some (remote_refs !! r))).
    + destruct (decide (n = key)) as [->|Hne].
      * now rewrite bool_decide_eq_true_2.
      * rewrite bool_decide_eq_false_2 by congruence. reflexivity.
    + rewrite bool_decide_eq_false_2 by congruence. reflexivity.
Qed.

(** What the table holds for a remote once all remotes have been looked at:
    the requested refs the remote lists, once for each time the remote occurs
    in the list of remotes. *)
Lemma config_remotes_loop_lookup repo remotes refs table n :
  config_remotes_loop repo remotes refs table !! n
  = extend_entry (table !! n)
      (concat (List.repeat (config_supported repo n refs)
                           (count_occ string_dec remotes n))).
Proof.
  revert table. induction remotes as [|n' rest IH]; intros table.
  - reflexivity.
  - cbn [config_remotes_loop count_occ]. rewrite IH.
    destruct (string_dec n' n) as [->|Hne].
    + cbn [List.repeat concat]. rewrite <- extend_entry_app. f_equal.
      unfold config_supported.
      destruct (ostree_repo_remote_list_refs repo n) as [remote_refs|];
        [|reflexivity].
      rewrite config_refs_loop_group, extend_entry_lookup, refs_with_key_config.
      now rewrite decide_True.
    + f_equal.
      destruct (ostree_repo_remote_list_refs repo n') as [remote_refs|];
        [|reflexivity].
      rewrite config_refs_loop_group, extend_entry_lookup, refs_with_key_config.
      now rewrite decide_False.
Qed.


Lemma config_aggregate_priority repo entries c :
  In c (config_aggregate repo entries) -> arg_priority c = config_priority.
Proof.
  induction entries as [|[n l] rest IH]; [intros []|].
  cbn [config_aggregate].
  destruct (_ostree_repo_get_remote_inherited repo n); [|exact IH].
  intros [<-|Hin]; [reflexivity | now apply IH].
Qed.


(** ** Repeated refs *)



Example finders_list_repeated_ref_twice :
  map arg_refs (mount_volume_results usb_fs ["os/a"; "os/a"] usb_volume)
  = [["os/a"; "os/a"]] /\
  ostree_repo_finder_config_resolve_async one_remote_repo ["os/a"; "os/a"]
  = inr [{| arg_remote := origin_remote; arg_priority := 100;
            arg_refs := ["os/a"; "os/a"]; arg_summary_last_modified := 0 |}].
Proof. split; vm_compute; reflexivity. Qed.

(** ** The priorities of the two finders *)

(** C6, as stated, fails: a config result is not ordered before a mount
    result that equals it on every other key. *)
Lemma config_result_not_before_mount_result :
  ~ (forall m c : OstreeRepoFinderResult,
       priority m = mount_priority ->
       priority c = config_priority ->
       summary_last_modified m = summary_last_modified c ->
       size (ref_to_checksum m) = size (ref_to_checksum c) ->
       remote_name (remote m) = remote_name (remote c) ->
       ostree_repo_finder_result_compare (Some c) (Some m) < 0).
Proof.
  intros H.
  specialize (H mount_like_result config_like_result
                eq_refl eq_refl eq_refl eq_refl eq_refl).
  vm_compute in H. discriminate.
Qed.

(** C6 (amended): every result of the mount finder carries the priority 50
    and every result of the config finder the priority 100; the comparator
    therefore orders a result with the mount finder's priority before a
    result with the config finder's priority, whatever their other keys. *)
Theorem mount_results_before_config_results
    (fs : FileSystem) (volumes : list GVolume) (repo : OstreeRepo)
    (refs : list string) (rs_mount rs_config : list ResultNewCall)
    (em ec : ResultNewCall) (m c : OstreeRepoFinderResult) :
  ostree_repo_finder_mount_resolve_async fs volumes refs = inr rs_mount ->
  In em rs_mount ->
  ostree_repo_finder_config_resolve_async repo refs = inr rs_config ->
  In ec rs_config ->
  priority m = arg_priority em ->
  priority c = arg_priority ec ->
  arg_priority em = 50 /\ arg_priority ec = 100 /\
  ostree_repo_finder_result_compare (Some m) (Some c) < 0 /\
  0 < ostree_repo_finder_result_compare (Some c) (Some m).
Proof.
  intros Hmount Hem Hconfig Hec Hm Hc.
  injection Hmount as <-. injection Hconfig as <-.
  apply in_flat_map in Hem as (volume & _ & Hem).
  apply mount_volume_results_priority in Hem.
  apply config_aggregate_priority in Hec.
  rewrite Hem in Hm. rewrite Hec in Hc.
  split; [exact Hem|]. split; [exact Hec|].
  unfold ostree_repo_finder_result_compare. rewrite Hm, Hc.
  split; vm_compute; reflexivity.
Qed.

Lemma mount_results_before_config_results_witness :
  arg_priority (mount_make_result (usb_repo_uri, ["os/a"])) = 50 /\
  arg_priority
    {| arg_remote := origin_remote; arg_priority := config_priority;
       arg_refs := ["os/a"]; arg_summary_last_modified := 0 |} = 100 /\
  ostree_repo_finder_result_compare
    (Some mount_like_result) (Some config_like_result) < 0 /\
  0 < ostree_repo_finder_result_compare
        (Some config_like_result) (Some mount_like_result).
Proof.
  apply (mount_results_before_config_results usb_fs [usb_volume]
           one_remote_repo ["os/a"]
           (flat_map (mount_volume_results usb_fs ["os/a"]) [usb_volume])
           (config_aggregate one_remote_repo
              (map_to_list
                 (config_remotes_loop one_remote_repo ["origin"] ["os/a"] ∅)))).
  - reflexivity.
  - vm_compute. left. reflexivity.
  - reflexivity.
  - vm_compute. left. reflexivity.
  - reflexivity.
  - reflexivity.
Defined.

(** * Further properties of the code *)

(** ** Validation of ref arrays and ref tables *)

Lemma valid_name_chars (r : string) :
  is_valid_ref_name (Some r) = true <->
  r <> "" /\ Forall (fun c => byte c < 128) (chars r).
Proof.
  unfold is_valid_ref_name. rewrite andb_true_iff, negb_true_iff.
  rewrite g_str_is_ascii_spec. split.
  - intros [He Ha]. split; [|exact Ha]. intros ->. discriminate.
  - intros [He Ha]. split; [|exact Ha].
    destruct r; [congruence | reflexivity].
Qed.

(** X1: [is_valid_ref_array] accepts an array exactly when it is not NULL,
    has at least one element, and each element is a non-empty string of
    ASCII bytes.  Neither the order of the names nor their repetition
    matters. *)
Theorem is_valid_ref_array_iff (refs : option (list string)) :
  is_valid_ref_array refs = true <->
  exists l, refs = Some l /\ l <> [] /\
    Forall (fun r => r <> "" /\ Forall (fun c => byte c < 128) (chars r)) l.
Proof.
  rewrite is_valid_ref_array_spec.
  split; intros (l & Hl & Hne & Hall); exists l; repeat split; auto;
    eapply Forall_impl; try exact Hall; intros r Hr; now apply valid_name_chars.
Qed.

Lemma is_valid_ref_map_loop_spec entries :
  is_valid_ref_map_loop entries = true <->
  Forall (fun e => is_valid_ref_name (Some (fst e)) = true) entries.
Proof.
  induction entries as [|[ref checksum] rest IH]; cbn [is_valid_ref_map_loop].
  - split; [constructor | reflexivity].
  - destruct (is_valid_ref_name (Some ref)) eqn:E; cbn [negb is_valid_checksum].
    + rewrite IH. split; intros H; [now constructor | now inversion H].
    + split; [discriminate|]. intros H. inversion H. simpl in *. congruence.
Qed.

Lemma is_valid_ref_map_loop_keys (table : gmap string (option string)) :
  is_valid_ref_map_loop (map_to_list table) = true <->
  forall ref checksum, table !! ref = Some checksum ->
                       is_valid_ref_name (Some ref) = true.
Proof.
  rewrite is_valid_ref_map_loop_spec, List.Forall_forall. split.
  - intros H ref checksum Hl.
    apply (H (ref, checksum)). now apply list_elem_of_In, elem_of_map_to_list.
  - intros H [ref checksum] Hin.
    apply list_elem_of_In, elem_of_map_to_list in Hin. simpl. eauto.
Qed.

Lemma g_hash_table_size_zero {V} (table : gmap string V) :
  Z.of_nat (size table) < 2 ^ 32 ->
  (g_hash_table_size table =? 0) = true <-> table = ∅.
Proof.
  intros Hlt. unfold g_hash_table_size, to_guint.
  rewrite Z.mod_small by lia. rewrite Z.eqb_eq. split.
  - intros H. apply map_size_empty_iff. lia.
  - intros ->. now rewrite map_size_empty.
Qed.

Lemma is_valid_ref_map_sound (table : gmap string (option string)) :
  is_valid_ref_map (Some table) = true ->
  (1 <= size table)%nat /\
  forall ref checksum, table !! ref = Some checksum ->
                       is_valid_ref_name (Some ref) = true.
Proof.
  unfold is_valid_ref_map.
  destruct (g_hash_table_size table =? 0) eqn:E; [discriminate|].
  intros H. split; [|now apply is_valid_ref_map_loop_keys].
  destruct (size table) eqn:Es; [|lia].
  unfold g_hash_table_size in E. rewrite Es in E. discriminate.
Qed.

(** X2: [is_valid_ref_map] accepts a table (of fewer than 2^32 entries, as a
    GHashTable has) exactly when it is not empty and each of its keys is a
    valid ref name, whatever the order in which the table is walked; the
    checksums are not looked at, and a missing one is accepted. *)
Theorem is_valid_ref_map_iff (table : gmap string (option string)) :
  Z.of_nat (size table) < 2 ^ 32 ->
  (is_valid_ref_map (Some table) = true <->
   table <> ∅ /\
   forall ref checksum, table !! ref = Some checksum ->
                        is_valid_ref_name (Some ref) = true).
Proof.
  intros Hlt. split.
  - intros H. apply is_valid_ref_map_sound in H as [Hsize Hkeys].
    split; [|exact Hkeys]. intros ->. rewrite map_size_empty in Hsize. lia.
  - intros [Hne Hkeys]. unfold is_valid_ref_map.
    destruct (g_hash_table_size table =? 0) eqn:E.
    + now apply g_hash_table_size_zero in E.
    + now apply is_valid_ref_map_loop_keys.
Qed.

Lemma is_valid_ref_map_iff_witness :
  is_valid_ref_map (Some one_ref_table) = true <->
  one_ref_table <> ∅ /\
  forall ref checksum, one_ref_table !! ref = Some checksum ->
                       is_valid_ref_name (Some ref) = true.
Proof.
  apply (is_valid_ref_map_iff one_ref_table). vm_compute. reflexivity.
Defined.

(** X3: a result that [ostree_repo_finder_result_new] returns holds the
    remote, the priority, the table and the timestamp it was given, and its
    table has at least one ref and only valid ref names as keys: no result
    without refs is ever constructed. *)
Theorem result_new_invariant
    (rem : option OstreeRemote) (finder : option OstreeRepoFinder)
    (p : Z) (table : option (gmap string (option string))) (modified : Z)
    (r : OstreeRepoFinderResult) :
  ostree_repo_finder_result_new rem finder p table modified = Some r ->
  rem = Some (remote r) /\
  is_Some finder /\
  table = Some (ref_to_checksum r) /\
  priority r = p /\
  summary_last_modified r = modified /\
  (1 <= size (ref_to_checksum r))%nat /\
  forall ref checksum, ref_to_checksum r !! ref = Some checksum ->
                       is_valid_ref_name (Some ref) = true.
Proof.
  unfold ostree_repo_finder_result_new.
  destruct rem as [rem|]; [|discriminate].
  destruct finder as [finder|]; [|discriminate].
  destruct table as [table|]; [|discriminate].
  destruct (is_valid_ref_map (Some table)) eqn:E; [|discriminate].
  cbn [negb]. intros [= <-]. cbn.
  apply is_valid_ref_map_sound in E as [Hsize Hkeys].
  repeat split; eauto.
Qed.

Lemma result_new_invariant_witness :
  let r := {| remote := origin_remote; priority := 100;
              ref_to_checksum := one_ref_table;
              summary_last_modified := 0 |} in
  Some origin_remote = Some (remote r) /\
  is_Some (Some failing_finder) /\
  Some one_ref_table = Some (ref_to_checksum r) /\
  priority r = 100 /\
  summary_last_modified r = 0 /\
  (1 <= size (ref_to_checksum r))%nat /\
  forall ref checksum, ref_to_checksum r !! ref = Some checksum ->
                       is_valid_ref_name (Some ref) = true.
Proof.
  apply (result_new_invariant (Some origin_remote) (Some failing_finder) 100
           (Some one_ref_table) 0).
  vm_compute. reflexivity.
Defined.

(** ** Queries of one finder and of several *)


Lemma resolve_all_start_loop_invoked finders invoked data :
  fst (resolve_all_start_loop finders invoked data) = invoked ++ finders.
Proof.
  revert invoked data. induction finders as [|f rest IH]; intros invoked data.
  - simpl. now rewrite app_nil_r.
  - cbn [resolve_all_start_loop]. rewrite IH, <- app_assoc. reflexivity.
Qed.

(** X5: [ostree_repo_finder_resolve_all_async] passes its checks exactly
    when there is at least one finder and the refs are valid; it then
    invokes every finder, in the order of the array, however many there
    are. *)
Theorem resolve_all_accepts_exactly_valid_input
    (finders : option (list OstreeRepoFinder)) (refs : option (list string)) :
  let call := ostree_repo_finder_resolve_all_async finders refs in
  (call_criticals call = [] <->
   (exists fs, finders = Some fs /\ fs <> []) /\
   is_valid_ref_array refs = true) /\
  (forall fs, finders = Some fs -> call_criticals call = [] ->
              call_invoked call = fs).
Proof.
  unfold ostree_repo_finder_resolve_all_async.
  destruct finders as [[|f rest]|].
  - cbn. split.
    + split; [discriminate | intros [(fs & [= <-] & H) _]; congruence].
    + discriminate.
  - destruct (is_valid_ref_array refs) eqn:E; cbn [negb].
    + pose proof (resolve_all_start_loop_invoked (f :: rest) []
                    {| n_finders_pending := 1; results := Some [] |}) as Hinv.
      destruct (resolve_all_start_loop (f :: rest) [] _) as [invoked data].
      cbn in *. subst invoked. split.
      * split; [|reflexivity]. intros _. split; [|reflexivity].
        exists (f :: rest). split; [reflexivity | discriminate].
      * intros fs [= <-] _. reflexivity.
    + cbn. split.
      * split; [discriminate | intros [_ H]; discriminate].
      * discriminate.
  - cbn. split.
    + split; [discriminate | intros [(fs & H & _) _]; discriminate].
    + discriminate.
Qed.



(** ** The comparator, further *)

Lemma strcmp_refl s : strcmp s s = 0.
Proof.
  induction s as [|c r IH]; simpl; [reflexivity|].
  now rewrite Z.eqb_refl.
Qed.

(** X7: a result compares equal to itself, whatever its fields hold. *)
Theorem compare_reflexive (a : OstreeRepoFinderResult) :
  ostree_repo_finder_result_compare (Some a) (Some a) = 0.
Proof.
  unfold ostree_repo_finder_result_compare.
  rewrite !Z.eqb_refl. cbn [negb andb].
  rewrite andb_false_r.
  destruct (remote_name (remote a)); simpl; [apply strcmp_refl | reflexivity].
Qed.

Lemma sign_of_lt z : sign_of z = Lt <-> z < 0.
Proof. unfold sign_of. apply Z.compare_lt_iff. Qed.

Lemma sign_of_eq z : sign_of z = Eq <-> z = 0.
Proof. unfold sign_of. apply Z.compare_eq_iff. Qed.

Lemma sign_of_gt z : sign_of z = Gt <-> 0 < z.
Proof. unfold sign_of. rewrite Z.compare_gt_iff. reflexivity. Qed.

(** X8: on two results for which no conversion to [gint] loses information
    (the priorities and the timestamps differ by less than 2^31, the tables
    hold fewer than 2^31 refs), the comparator orders by priority, then by
    the timestamps when both are known and differ, then by the number of
    refs, then by the remote name: its value is negative, zero or positive
    as that cascade says less, equal or greater. *)
Theorem compare_orders_by_cascade (a b : OstreeRepoFinderResult) :
  compare_in_range a b ->
  (ostree_repo_finder_result_compare (Some a) (Some b) < 0 <->
   compare_cascade a b = Lt) /\
  (ostree_repo_finder_result_compare (Some a) (Some b) = 0 <->
   compare_cascade a b = Eq) /\
  (0 < ostree_repo_finder_result_compare (Some a) (Some b) <->
   compare_cascade a b = Gt).
Proof.
  intros H. rewrite <- (compare_is_cascade_in_range a b H).
  rewrite sign_of_lt, sign_of_eq, sign_of_gt. tauto.
Qed.

Lemma compare_orders_by_cascade_witness :
  (ostree_repo_finder_result_compare (Some result_x) (Some result_z) < 0 <->
   compare_cascade result_x result_z = Lt) /\
  (ostree_repo_finder_result_compare (Some result_x) (Some result_z) = 0 <->
   compare_cascade result_x result_z = Eq) /\
  (0 < ostree_repo_finder_result_compare (Some result_x) (Some result_z) <->
   compare_cascade result_x result_z = Gt).
Proof.
  apply (compare_orders_by_cascade result_x result_z).
  unfold compare_in_range, is_gint, GINT_MIN, GINT_MAX.
  repeat split; try (vm_compute; congruence);
    repeat constructor; vm_compute; congruence.
Defined.

(** X9: on such results, swapping the arguments of the comparator swaps the
    sign of its value. *)
Theorem compare_antisymmetric_in_range (a b : OstreeRepoFinderResult) :
  compare_in_range a b -> compare_in_range b a ->
  (ostree_repo_finder_result_compare (Some b) (Some a) < 0 <->
   0 < ostree_repo_finder_result_compare (Some a) (Some b)) /\
  (ostree_repo_finder_result_compare (Some b) (Some a) = 0 <->
   ostree_repo_finder_result_compare (Some a) (Some b) = 0).
Proof.
  intros Hab Hba. pose proof (compare_swap_in_range a b Hab Hba) as H.
  rewrite <- sign_of_lt, <- sign_of_gt, <- !sign_of_eq. rewrite H.
  destruct (sign_of (ostree_repo_finder_result_compare (Some a) (Some b)));
    simpl; split; split; congruence.
Qed.

Lemma compare_antisymmetric_in_range_witness :
  (ostree_repo_finder_result_compare (Some result_z) (Some result_x) < 0 <->
   0 < ostree_repo_finder_result_compare (Some result_x) (Some result_z)) /\
  (ostree_repo_finder_result_compare (Some result_z) (Some result_x) = 0 <->
   ostree_repo_finder_result_compare (Some result_x) (Some result_z) = 0).
Proof.
  apply (compare_antisymmetric_in_range result_x result_z);
    unfold compare_in_range, is_gint, GINT_MIN, GINT_MAX;
    repeat split; try (vm_compute; congruence);
    repeat constructor; vm_compute; congruence.
Defined.

Lemma compare_by_name a b :
  priority a = priority b ->
  summary_last_modified a = 0 \/ summary_last_modified b = 0 ->
  size (ref_to_checksum a) = size (ref_to_checksum b) ->
  ostree_repo_finder_result_compare (Some a) (Some b)
  = g_strcmp0 (remote_name (remote a)) (remote_name (remote b)).
Proof.
  intros Hp Hs Hn. unfold ostree_repo_finder_result_compare.
  rewrite Hp, Z.eqb_refl. cbn [negb].
  replace (negb (summary_last_modified a =? 0)
           && negb (summary_last_modified b =? 0)
           && negb (summary_last_modified a =? summary_last_modified b))
    with false.
  - cbv zeta. unfold g_hash_table_size. rewrite Hn, Z.eqb_refl. reflexivity.
  - destruct Hs as [-> | ->]; cbn; [reflexivity|].
    now rewrite andb_false_r.
Qed.

(** X10: the comparator is not transitive.  A result without timestamp is
    compared with any other by the number of refs and the name; two results
    with timestamps are compared by the timestamps first.  So among three
    results of one priority and one number of refs, where [a] and [c] carry
    timestamps, [c] the older, [b] carries none, and the names ascend from
    [a] to [b] to [c], the comparator puts [a] before [b], [b] before [c]
    and [c] before [a]. *)
Theorem compare_cycle (a b c : OstreeRepoFinderResult) :
  priority a = priority b -> priority b = priority c ->
  size (ref_to_checksum a) = size (ref_to_checksum b) ->
  size (ref_to_checksum b) = size (ref_to_checksum c) ->
  summary_last_modified b = 0 ->
  0 < summary_last_modified c < summary_last_modified a ->
  summary_last_modified a - summary_last_modified c <= GINT_MAX ->
  name_is_c_string (remote_name (remote a)) ->
  name_is_c_string (remote_name (remote b)) ->
  name_is_c_string (remote_name (remote c)) ->
  name_lex (remote_name (remote a)) (remote_name (remote b)) = Lt ->
  name_lex (remote_name (remote b)) (remote_name (remote c)) = Lt ->
  ostree_repo_finder_result_compare (Some a) (Some b) < 0 /\
  ostree_repo_finder_result_compare (Some b) (Some c) < 0 /\
  ostree_repo_finder_result_compare (Some c) (Some a) < 0.
Proof.
  intros Hpab Hpbc Hnab Hnbc Hb Hca Hrange Ha' Hb' Hc' Hab Hbc.
  split; [|split].
  - rewrite compare_by_name by auto.
    apply (proj1 (sign_of_lt _)). now rewrite g_strcmp0_sign.
  - rewrite compare_by_name by auto.
    apply (proj1 (sign_of_lt _)). now rewrite g_strcmp0_sign.
  - unfold ostree_repo_finder_result_compare.
    replace (priority c) with (priority a) by congruence.
    rewrite Z.eqb_refl. cbn [negb].
    replace (summary_last_modified c =? 0) with false
      by (symmetry; apply Z.eqb_neq; lia).
    replace (summary_last_modified a =? 0) with false
      by (symmetry; apply Z.eqb_neq; lia).
    replace (summary_last_modified c =? summary_last_modified a) with false
      by (symmetry; apply Z.eqb_neq; lia).
    cbn [negb andb]. rewrite to_gint_to_guint64.
    unfold GINT_MAX in Hrange.
    rewrite to_gint_id by (unfold is_gint, GINT_MIN, GINT_MAX; lia). lia.
Qed.

Lemma compare_cycle_witness :
  ostree_repo_finder_result_compare (Some result_x) (Some result_y) < 0 /\
  ostree_repo_finder_result_compare (Some result_y) (Some result_z) < 0 /\
  ostree_repo_finder_result_compare (Some result_z) (Some result_x) < 0.
Proof.
  apply (compare_cycle result_x result_y result_z);
    try reflexivity;
    try (vm_compute; split; reflexivity);
    try (vm_compute; congruence);
    repeat constructor; vm_compute; congruence.
Defined.

(** ** The order of the array that a query of all finders returns *)

Lemma successful_results_forall (P : OstreeRepoFinderResult -> Prop) outcomes :
  (forall rs, In (inr rs) outcomes -> List.Forall P rs) ->
  List.Forall P (successful_results outcomes).
Proof.
  induction outcomes as [|o rest IH]; intros H; simpl; [constructor|].
  destruct o as [e|rs].
  - apply IH. intros rs Hin. apply H. now right.
  - apply List.Forall_app. split.
    + apply H. now left.
    + apply IH. intros rs' Hin. apply H. now right.
Qed.

(** X11: the array that a query of all finders returns is in ascending
    order of priority, whatever the order in which the finders complete,
    provided the priorities of the results lie between -2^30 and 2^30, so
    that their differences fit a [gint]. *)
Theorem resolve_all_returns_by_priority
    (finders : list OstreeRepoFinder) (refs : list string)
    (completed : list OstreeRepoFinder) :
  finders <> [] ->
  is_valid_ref_array (Some refs) = true ->
  Z.of_nat (length finders) + 1 < 2 ^ 64 ->
  Permutation completed finders ->
  (forall f rs, In f finders -> iface_resolve f refs = inr rs ->
                List.Forall small_priority rs) ->
  exists task returned,
    resolve_all_run finders refs completed = Some task /\
    task_returned task = [returned] /\
    StronglySorted by_priority returned.
Proof.
  intros Hne Hv Hlt Hperm Hsmall.
  pose proof (Permutation_length Hperm) as Hlen.
  destruct (resolve_all_run_spec finders refs completed Hne Hv Hlt)
    as (task & Hrun & _ & _ & Hlast); [lia|].
  eexists. eexists. split; [exact Hrun|]. split; [exact (Hlast Hlen)|].
  apply g_ptr_array_sort_by_priority, successful_results_forall.
  intros rs Hin. apply in_map_iff in Hin as (f & Hf & Hin).
  apply (Hsmall f rs); [|exact Hf].
  eapply Permutation_in; [exact Hperm | exact Hin].
Qed.

Lemma resolve_all_returns_by_priority_witness :
  let completed :=
    [constant_finder [config_like_result; mount_like_result];
     unsorted_finder; failing_finder] in
  exists task returned,
    resolve_all_run three_finders one_ref completed = Some task /\
    task_returned task = [returned] /\
    map priority returned = [50; 50; 50; 50; 50; 100] /\
    StronglySorted by_priority returned.
Proof.
  intros completed.
  destruct (resolve_all_returns_by_priority three_finders one_ref completed)
    as (task & returned & Hrun & Hret & Hsorted).
  - discriminate.
  - reflexivity.
  - vm_compute. reflexivity.
  - apply perm_trans with
      [constant_finder [config_like_result; mount_like_result];
       failing_finder; unsorted_finder];
      [apply perm_skip, perm_swap | apply perm_swap].
  - intros f rs [<-|[<-|[<-|[]]]]; simpl; intros [= <-];
      repeat constructor; vm_compute; congruence.
  - exists task, returned. split; [exact Hrun|]. split; [exact Hret|].
    split; [|exact Hsorted].
    pose proof Hrun as Htask. vm_compute in Htask. injection Htask as Htask.
    rewrite <- Htask in Hret. cbn in Hret. injection Hret as Hreturned.
    rewrite <- Hreturned. reflexivity.
Defined.

(** ** The mount finder, further *)

Lemma mount_resolve_ref_scheme fs p d st r uri :
  mount_resolve_ref fs p d st r = Some uri ->
  String.prefix "file://" uri = true.
Proof.
  unfold mount_resolve_ref.
  destruct (glnx_fstatat fs d r) as [stbuf|]; [|discriminate].
  destruct (negb (Z.land (st_mode stbuf) S_IFMT =? S_IFDIR)); [discriminate|].
  destruct (negb (st_dev stbuf =? st_dev st)); [discriminate|].
  intros [= <-]. unfold file_uri.
  destruct (realpath fs _) as [path|]; [|reflexivity].
  simpl. now destruct path.
Qed.

(** X12: what every result of the mount finder looks like.  It carries the
    priority 50 and no timestamp; its remote asks for the verification of
    signatures and of the summary and is named by its URL, a [file://] URI;
    its refs are not empty, are all among the requested refs, and all
    resolve to that URI on one volume that was scanned. *)
Theorem mount_results_sound
    (fs : FileSystem) (volumes : list GVolume) (refs : list string)
    (rs : list ResultNewCall) (c : ResultNewCall) :
  ostree_repo_finder_mount_resolve_async fs volumes refs = inr rs ->
  In c rs ->
  arg_priority c = 50 /\
  arg_summary_last_modified c = 0 /\
  remote_gpg_verify (arg_remote c) = true /\
  remote_gpg_verify_summary (arg_remote c) = true /\
  arg_refs c <> [] /\
  (forall r, In r (arg_refs c) -> In r refs) /\
  exists volume p d st uri,
    In volume volumes /\
    mount_volume_open fs volume = Some (p, d, st) /\
    remote_name (arg_remote c) = Some uri /\
    remote_url (arg_remote c) = uri /\
    String.prefix "file://" uri = true /\
    (forall r, In r (arg_refs c) -> mount_resolve_ref fs p d st r = Some uri).
Proof.
  intros [= <-] Hin. apply in_flat_map in Hin as (volume & Hvol & Hin).
  destruct (mount_volume_open fs volume) as [[[p d] st]|] eqn:Hopen.
  - destruct (mount_volume_results_in fs refs volume p d st c Hopen Hin)
      as (uri & -> & Hne).
    cbn [mount_make_result arg_priority arg_summary_last_modified arg_remote
         arg_refs remote_gpg_verify remote_gpg_verify_summary remote_name
         remote_url].
    repeat split; auto.
    + intros r Hr. now apply refs_with_key_in in Hr.
    + exists volume, p, d, st, uri. repeat split; auto.
      * destruct (refs_with_key (mount_resolve_ref fs p d st) uri refs)
          as [|r rest] eqn:E; [congruence|].
        assert (Hr : In r (refs_with_key (mount_resolve_ref fs p d st) uri refs))
          by (rewrite E; now left).
        apply refs_with_key_in in Hr as [_ Hr].
        now apply (mount_resolve_ref_scheme fs p d st r).
      * intros r Hr. now apply refs_with_key_in in Hr.
  - rewrite mount_volume_results_open, Hopen in Hin. destruct Hin.
Qed.

Lemma mount_results_sound_witness :
  let c := mount_make_result (usb_repo_uri, ["os/a"; "os/b"]) in
  arg_priority c = 50 /\
  arg_summary_last_modified c = 0 /\
  remote_gpg_verify (arg_remote c) = true /\
  remote_gpg_verify_summary (arg_remote c) = true /\
  arg_refs c <> [] /\
  (forall r, In r (arg_refs c) -> In r ["os/a"; "os/b"; "os/c"]) /\
  exists volume p d st uri,
    In volume [fixed_volume; usb_volume] /\
    mount_volume_open usb_fs volume = Some (p, d, st) /\
    remote_name (arg_remote c) = Some uri /\
    remote_url (arg_remote c) = uri /\
    String.prefix "file://" uri = true /\
    (forall r, In r (arg_refs c) -> mount_resolve_ref usb_fs p d st r = Some uri).
Proof.
  apply (mount_results_sound usb_fs [fixed_volume; usb_volume]
           ["os/a"; "os/b"; "os/c"]
           (flat_map (mount_volume_results usb_fs ["os/a"; "os/b"; "os/c"])
                     [fixed_volume; usb_volume])).
  - reflexivity.
  - vm_compute. left. reflexivity.
Defined.

(** X13: within one volume the results are distinct repositories: two
    results of the volume that bear the same name, or that list a common
    ref, are one and the same result. *)
Theorem mount_volume_results_disjoint
    (fs : FileSystem) (refs : list string) (volume : GVolume)
    (c1 c2 : ResultNewCall) :
  In c1 (mount_volume_results fs refs volume) ->
  In c2 (mount_volume_results fs refs volume) ->
  remote_name (arg_remote c1) = remote_name (arg_remote c2) \/
  (exists r, In r (arg_refs c1) /\ In r (arg_refs c2)) ->
  c1 = c2.
Proof.
  intros H1 H2 Hsame.
  destruct (mount_volume_open fs volume) as [[[p d] st]|] eqn:Hopen.
  - destruct (mount_volume_results_in fs refs volume p d st c1 Hopen H1)
      as (u1 & -> & _).
    destruct (mount_volume_results_in fs refs volume p d st c2 Hopen H2)
      as (u2 & -> & _).
    cbn [mount_make_result arg_remote arg_refs remote_name] in Hsame.
    assert (u1 = u2) as ->; [|reflexivity].
    destruct Hsame as [[= ->]|(r & Hr1 & Hr2)]; [reflexivity|].
    apply refs_with_key_in in Hr1 as [_ Hr1].
    apply refs_with_key_in in Hr2 as [_ Hr2]. congruence.
  - rewrite mount_volume_results_open, Hopen in H1. destruct H1.
Qed.

Lemma mount_volume_results_disjoint_witness :
  mount_make_result (usb_repo_uri, ["os/a"; "os/b"])
  = mount_make_result (usb_repo_uri, ["os/a"; "os/b"]).
Proof.
  apply (mount_volume_results_disjoint usb_fs ["os/a"; "os/b"; "os/c"] usb_volume).
  - vm_compute. left. reflexivity.
  - vm_compute. left. reflexivity.
  - left. reflexivity.
Defined.

Lemma mount_resolve_ref_not_directory fs p d st r :
  glnx_fstatat fs d r = None \/
  (exists stbuf, glnx_fstatat fs d r = Some stbuf /\
                 Z.land (st_mode stbuf) S_IFMT <> S_IFDIR) ->
  mount_resolve_ref fs p d st r = None.
Proof.
  unfold mount_resolve_ref. intros [->|(stbuf & -> & Hmode)]; [reflexivity|].
  apply Z.eqb_neq in Hmode. now rewrite Hmode.
Qed.

(** X14: on a volume that is scanned, a ref for which nothing can be
    queried under [.ostree/repos], or for which something other than a
    directory is found, is left out like a ref on another device: no result
    of the volume lists it, and the volume adds the results it would add if
    the ref had not been requested. *)
Theorem mount_missing_ref_excluded
    (fs : FileSystem) (refs : list string) (volume : GVolume)
    (p : string) (d : Z) (st : stat) (r : string) :
  mount_volume_open fs volume = Some (p, d, st) ->
  glnx_fstatat fs d r = None \/
  (exists stbuf, glnx_fstatat fs d r = Some stbuf /\
                 Z.land (st_mode stbuf) S_IFMT <> S_IFDIR) ->
  (forall c, In c (mount_volume_results fs refs volume) -> ~ In r (arg_refs c)) /\
  mount_volume_results fs refs volume
  = mount_volume_results fs (without_ref r refs) volume.
Proof.
  intros Hopen Hskip.
  pose proof (mount_resolve_ref_not_directory fs p d st r Hskip) as Hnone.
  split.
  - intros c Hc Hin.
    destruct (mount_volume_results_in fs refs volume p d st c Hopen Hc)
      as (uri & -> & _).
    cbn [mount_make_result arg_refs] in Hin.
    apply refs_with_key_in in Hin as [_ Hkey]. congruence.
  - rewrite !mount_volume_results_open, Hopen, !mount_refs_loop_group.
    now rewrite (group_refs_without _ refs ∅ r Hnone).
Qed.

Lemma mount_missing_ref_excluded_witness :
  (forall c, In c (mount_volume_results usb_fs ["os/a"; "os/none"] usb_volume) ->
             ~ In "os/none" (arg_refs c)) /\
  mount_volume_results usb_fs ["os/a"; "os/none"] usb_volume
  = mount_volume_results usb_fs (without_ref "os/none" ["os/a"; "os/none"])
      usb_volume.
Proof.
  apply (mount_missing_ref_excluded usb_fs ["os/a"; "os/none"] usb_volume
           "/run/media/usb" 4 usb_dir "os/none").
  - reflexivity.
  - left. reflexivity.
Defined.

(** X15: the result of [realpath] is not checked.  On a volume that is
    scanned, a requested ref that is a directory on the device of the mount
    root, but whose path [realpath] cannot resolve, is not left out: it is
    listed by a result named [file://], the URI without a path, together
    with every other such ref. *)
Theorem mount_realpath_failure_keeps_ref
    (fs : FileSystem) (refs : list string) (volume : GVolume)
    (p : string) (d : Z) (st stbuf : stat) (r : string) :
  mount_volume_open fs volume = Some (p, d, st) ->
  In r refs ->
  glnx_fstatat fs d r = Some stbuf ->
  Z.land (st_mode stbuf) S_IFMT = S_IFDIR ->
  st_dev stbuf = st_dev st ->
  realpath fs (g_build_filename [p; ".ostree"; "repos"; r]) = None ->
  exists res,
    List.filter (named "file://") (mount_volume_results fs refs volume) = [res] /\
    remote_url (arg_remote res) = "file://" /\
    In r (arg_refs res).
Proof.
  intros Hopen Hin Hstat Hmode Hdev Hreal.
  assert (Hres : mount_resolve_ref fs p d st r = Some "file://").
  { unfold mount_resolve_ref. rewrite Hstat, Hmode, Hdev, !Z.eqb_refl.
    cbn [negb]. now rewrite Hreal. }
  assert (Hr : In r (refs_with_key (mount_resolve_ref fs p d st) "file://" refs))
    by now apply refs_with_key_in.
  eexists. split; [|split].
  - apply (mount_volume_results_named fs refs volume p d st _ Hopen).
    intros Hnil. rewrite Hnil in Hr. destruct Hr.
  - reflexivity.
  - exact Hr.
Qed.

Lemma mount_realpath_failure_keeps_ref_witness :
  exists res,
    List.filter (named "file://")
      (mount_volume_results no_realpath_fs ["os/a"] usb_volume) = [res] /\
    remote_url (arg_remote res) = "file://" /\
    In "os/a" (arg_refs res).
Proof.
  apply (mount_realpath_failure_keeps_ref no_realpath_fs ["os/a"] usb_volume
           "/run/media/usb" 4 usb_dir usb_dir "os/a").
  - reflexivity.
  - simpl. auto.
  - reflexivity.
  - reflexivity.
  - reflexivity.
  - reflexivity.
Defined.

Lemma mount_volume_results_not_candidate fs refs volume :
  volume_is_candidate volume = false ->
  mount_volume_results fs refs volume = [].
Proof.
  unfold volume_is_candidate, mount_volume_results.
  destruct (g_volume_get_drive volume) as [drive|]; [|reflexivity].
  destruct (g_volume_get_mount volume) as [mount|]; [|reflexivity].
  now intros ->.
Qed.

(** X16: a volume without a drive, without a mount, or of a drive that is
    not removable adds nothing and does not stop the scan: the finder
    returns what it returns for the other volumes alone, whatever the file
    system holds. *)
Theorem mount_ignores_unsuitable_volumes
    (fs : FileSystem) (volumes : list GVolume) (refs : list string) :
  ostree_repo_finder_mount_resolve_async fs volumes refs
  = ostree_repo_finder_mount_resolve_async fs
      (List.filter volume_is_candidate volumes) refs.
Proof.
  unfold ostree_repo_finder_mount_resolve_async. f_equal.
  induction volumes as [|v rest IH]; [reflexivity|].
  cbn [flat_map List.filter].
  destruct (volume_is_candidate v) eqn:E.
  - cbn [flat_map]. now rewrite IH.
  - now rewrite (mount_volume_results_not_candidate fs refs v E), IH.
Qed.

(** ** The config finder, further *)

Lemma config_aggregate_in_iff repo entries c :
  In c (config_aggregate repo entries) <->
  exists n l rem,
    In (n, l) entries /\
    _ostree_repo_get_remote_inherited repo n = Some rem /\
    c = {| arg_remote := rem; arg_priority := config_priority;
           arg_refs := l; arg_summary_last_modified := 0 |}.
Proof.
  induction entries as [|[n' l'] rest IH]; cbn [config_aggregate].
  - split; [intros [] | intros (n & l & rem & [] & _)].
  - destruct (_ostree_repo_get_remote_inherited repo n') as [rem'|] eqn:E.
    + cbn [In]. rewrite IH. split.
      * intros [<-|(n & l & rem & Hin & Hrem & ->)].
        -- exists n', l', rem'. split; [now left | now split].
        -- exists n, l, rem. split; [now right | now split].
      * intros (n & l & rem & [[= -> ->]|Hin] & Hrem & ->).
        -- left. congruence.
        -- right. exists n, l, rem. now repeat split.
    + rewrite IH. split.
      * intros (n & l & rem & Hin & Hrem & ->).
        exists n, l, rem. split; [now right | now split].
      * intros (n & l & rem & [[= -> ->]|Hin] & Hrem & ->); [congruence|].
        exists n, l, rem. now repeat split.
Qed.

Lemma concat_repeat_not_nil (l : list string) (k : nat) :
  concat (List.repeat l k) <> [] <-> (1 <= k)%nat /\ l <> [].
Proof.
  induction k as [|k IH]; cbn [List.repeat concat].
  - split; [congruence | lia].
  - split.
    + intros H. split; [lia|]. intros ->. apply IH in H as [_ H]. congruence.
    + intros [_ Hl]. destruct l; [congruence | discriminate].
Qed.

Lemma in_concat_repeat (l : list string) (k : nat) (x : string) :
  In x (concat (List.repeat l k)) -> In x l.
Proof.
  induction k as [|k IH]; cbn [List.repeat concat]; [intros []|].
  rewrite in_app_iff. tauto.
Qed.

Lemma config_table_entry repo refs n l :
  config_remotes_loop repo (ostree_repo_remote_list repo) refs ∅ !! n = Some l <->
  In n (ostree_repo_remote_list repo) /\
  config_supported repo n refs <> [] /\
  l = concat (List.repeat (config_supported repo n refs)
                (count_occ string_dec (ostree_repo_remote_list repo) n)).
Proof.
  rewrite config_remotes_loop_lookup, lookup_empty.
  set (supp := config_supported repo n refs).
  set (k := count_occ string_dec (ostree_repo_remote_list repo) n).
  rewrite (count_occ_In string_dec). fold k.
  unfold extend_entry.
  destruct (concat (List.repeat supp k)) as [|x rest] eqn:E.
  - split; [discriminate|]. intros (Hk & Hs & _).
    assert (concat (List.repeat supp k) <> []) as H
      by (apply concat_repeat_not_nil; split; [lia | exact Hs]).
    congruence.
  - assert (concat (List.repeat supp k) <> []) as H by (rewrite E; discriminate).
    apply concat_repeat_not_nil in H as [Hk Hs].
    simpl. split.
    + intros [= <-]. repeat split; auto; lia.
    + intros (_ & _ & ->). reflexivity.
Qed.

(** X17: the results of the config finder, exactly.  There is a result for
    a remote of the repository when the refs of the remote can be loaded, at
    least one requested ref is among them, and the configuration of the
    remote is found; a remote that lists no requested ref, whose refs cannot
    be loaded, or whose configuration is missing, adds nothing and does not
    fail the query.  The result carries the configured remote, the priority
    100, no timestamp, and the requested refs that the remote lists, in the
    order of the request (once for each time the name of the remote occurs
    in the list of remotes). *)
Theorem config_results_characterised
    (repo : OstreeRepo) (refs : list string) :
  exists rs,
    ostree_repo_finder_config_resolve_async repo refs = inr rs /\
    forall c,
      In c rs <->
      exists n rem,
        In n (ostree_repo_remote_list repo) /\
        _ostree_repo_get_remote_inherited repo n = Some rem /\
        config_supported repo n refs <> [] /\
        c = {| arg_remote := rem;
               arg_priority := 100;
               arg_refs :=
                 concat (List.repeat (config_supported repo n refs)
                           (count_occ string_dec
                              (ostree_repo_remote_list repo) n));
               arg_summary_last_modified := 0 |}.
Proof.
  eexists. split; [reflexivity|]. intros c.
  rewrite config_aggregate_in_iff. split.
  - intros (n & l & rem & Hin & Hrem & ->).
    apply list_elem_of_In, elem_of_map_to_list, config_table_entry in Hin
      as (Hn & Hs & ->).
    exists n, rem. auto.
  - intros (n & rem & Hn & Hrem & Hs & ->).
    eexists n, _, rem. split; [|split; [exact Hrem | reflexivity]].
    apply list_elem_of_In, elem_of_map_to_list, config_table_entry. auto.
Qed.

Example config_skips_unusable_remotes :
  ostree_repo_finder_config_resolve_async three_remote_repo ["os/b"; "os/a"]
  = inr [{| arg_remote := origin_remote; arg_priority := 100;
            arg_refs := ["os/a"]; arg_summary_last_modified := 0 |}].
Proof. vm_compute. reflexivity. Qed.

(** ** The ref arrays of the results *)

Lemma valid_subarray refs l :
  is_valid_ref_array (Some refs) = true ->
  l <> [] ->
  (forall r, In r l -> In r refs) ->
  is_valid_ref_array (Some l) = true.
Proof.
  intros Hv Hne Hsub.
  apply is_valid_ref_array_spec in Hv as (refs' & [= <-] & _ & Hall).
  apply is_valid_ref_array_spec. exists l. repeat split; auto.
  rewrite List.Forall_forall in *. auto.
Qed.

(** X18: for a valid request, the array of refs of every result of the mount
    finder and of the config finder is itself valid: it is not empty and
    holds only requested, hence valid, ref names. *)
Theorem finders_emit_valid_ref_arrays
    (fs : FileSystem) (volumes : list GVolume) (repo : OstreeRepo)
    (refs : list string) (rs_mount rs_config : list ResultNewCall) :
  is_valid_ref_array (Some refs) = true ->
  ostree_repo_finder_mount_resolve_async fs volumes refs = inr rs_mount ->
  ostree_repo_finder_config_resolve_async repo refs = inr rs_config ->
  (forall c, In c rs_mount -> is_valid_ref_array (Some (arg_refs c)) = true) /\
  (forall c, In c rs_config -> is_valid_ref_array (Some (arg_refs c)) = true).
Proof.
  intros Hv [= <-] [= <-]. split; intros c Hin.
  - apply in_flat_map in Hin as (volume & _ & Hin).
    destruct (mount_volume_open fs volume) as [[[p d] st]|] eqn:Hopen.
    + destruct (mount_volume_results_in fs refs volume p d st c Hopen Hin)
        as (uri & -> & Hne).
      apply (valid_subarray refs); auto.
      intros r Hr. now apply refs_with_key_in in Hr.
    + rewrite mount_volume_results_open, Hopen in Hin. destruct Hin.
  - apply config_aggregate_in_iff in Hin as (n & l & rem & Hin & _ & ->).
    apply list_elem_of_In, elem_of_map_to_list, config_table_entry in Hin
      as (Hn & Hs & ->).
    cbn [arg_refs]. apply (valid_subarray refs); auto.
    + apply concat_repeat_not_nil. split; [|exact Hs].
      apply (count_occ_In string_dec) in Hn. lia.
    + intros r Hr. apply in_concat_repeat in Hr.
      unfold config_supported in Hr.
      destruct (ostree_repo_remote_list_refs repo n); [|destruct Hr].
      now apply filter_In in Hr.
Qed.

Lemma finders_emit_valid_ref_arrays_witness :
  (forall c,
     In c (flat_map (mount_volume_results usb_fs ["os/a"; "os/b"]) [usb_volume]) ->
     is_valid_ref_array (Some (arg_refs c)) = true) /\
  (forall c,
     In c (config_aggregate one_remote_repo
             (map_to_list
                (config_remotes_loop one_remote_repo ["origin"] ["os/a"; "os/b"] ∅))) ->
     is_valid_ref_array (Some (arg_refs c)) = true).
Proof.
  apply (finders_emit_valid_ref_arrays usb_fs [usb_volume] one_remote_repo
           ["os/a"; "os/b"]).
  - reflexivity.
  - reflexivity.
  - reflexivity.
Defined.

(** ** The end of an aggregation *)

(** X19: when every started finder has completed, the data of the task can
    be freed: no finder is pending, so the assertion of
    [resolve_all_data_free] holds, and the results array is no longer held
    by the data, since it was handed to the caller.  While a finder is
    still pending the assertion fails. *)
Theorem resolve_all_data_free_after_completion
    (finders : list OstreeRepoFinder) (refs : list string)
    (completed : list OstreeRepoFinder) :
  finders <> [] ->
  is_valid_ref_array (Some refs) = true ->
  Z.of_nat (length finders) + 1 < 2 ^ 64 ->
  (length completed <= length finders)%nat ->
  exists task,
    resolve_all_run finders refs completed = Some task /\
    (length completed = length finders ->
     resolve_all_data_free (task_data task) = Some tt /\
     results (task_data task) = None) /\
    ((length completed < length finders)%nat ->
     resolve_all_data_free (task_data task) = None /\
     results (task_data task)
     = Some (successful_results (map (fun f => iface_resolve f refs) completed))).
Proof.
  intros Hne Hv Hlt Hk. unfold resolve_all_run.
  rewrite (resolve_all_async_started finders refs Hne Hv Hlt).
  cbn [call_task].
  assert (Hpos : 0 < Z.of_nat (length finders)).
  { destruct finders; [congruence | simpl; lia]. }
  destruct (dispatch_completions_spec
              (map (fun f => iface_resolve f refs) completed)
              (Z.of_nat (length finders)) [])
    as (task & Hrun & Hcount & Hbefore & Hlast).
  { rewrite length_map. lia. }
  { exact Hpos. }
  rewrite length_map in *.
  exists task. split; [exact Hrun|]. unfold resolve_all_data_free. split.
  - intros Hall. destruct Hlast as [Hres _]; [lia|].
    rewrite Hcount, Hall, Z.sub_diag. now split.
  - intros Hless. destruct Hbefore as [Hres _]; [lia|].
    rewrite Hcount. split; [|exact Hres].
    destruct (_ =? 0) eqn:E; [|reflexivity]. apply Z.eqb_eq in E. lia.
Qed.

Lemma resolve_all_data_free_after_completion_witness :
  exists task,
    resolve_all_run two_finders one_ref two_finders = Some task /\
    (2%nat = 2%nat ->
     resolve_all_data_free (task_data task) = Some tt /\
     results (task_data task) = None) /\
    ((2 < 2)%nat ->
     resolve_all_data_free (task_data task) = None /\
     results (task_data task)
     = Some (successful_results
               (map (fun f => iface_resolve f one_ref) two_finders))).
Proof.
  apply (resolve_all_data_free_after_completion two_finders one_ref two_finders).
  - discriminate.
  - reflexivity.
  - vm_compute. reflexivity.
  - simpl. lia.
Defined.
